(** * Shipyard view, game tick and directory store: a shallow embedding

    The development follows three source units of the repository:
    - [src/components/views/WerftView.tsx]: the derived hangar usage, the
      derived queue entries, the quantity inputs and the order actions;
    - [src/hooks/useGameTick.ts]: the heartbeat effect;
    - the directory store ([refresh], [applySnapshot],
      [createFallbackSnapshot], [buildAllianceColorMap]).
    The shipyard store itself is not among these units; its [advance]
    action is modelled after the specification, in [Shipyard].

    JavaScript numbers that hold counts, slots and timestamps are taken as
    integers ([Z]); JavaScript objects used as dictionaries are [gmap]s. *)

From Stdlib Require Import ZArith List Ascii Sorting.Permutation Sorting.Sorted.
From stdpp Require Import gmap strings list fin_maps pretty.
Import ListNotations.

Set Warnings "-notation-for-abbreviation".

Local Open Scope Z_scope.

(** ** Data model *)

(** [ShipBuildOrder['status']]: the four keys of [ORDER_STATUS_LABELS]. *)
Inductive OrderStatus : Type :=
  | queued
  | building
  | completed
  | cancelled.

#[global] Instance OrderStatus_eq_dec : EqDecision OrderStatus.
Proof. solve_decision. Defined.

(** [ShipBuildOrder], with the fields the view reads. *)
Record ShipBuildOrder : Type := mkOrder {
  order_id : string;
  order_blueprintId : string;
  order_quantity : Z;
  order_status : OrderStatus;
  order_startTime : Z;
  order_endTime : Z
}.

#[global] Instance ShipBuildOrder_eq_dec : EqDecision ShipBuildOrder.
Proof. solve_decision. Defined.

(** An entry of [SHIP_BLUEPRINTS], with the fields the view reads. *)
Record ShipBlueprint : Type := mkBlueprint {
  bp_id : string;
  bp_name : string;
  bp_hangarSlots : Z;
  bp_buildTimeSeconds : Z
}.

(** ** WerftView.tsx *)

Module WerftView.

(** [ORDER_STATUS_LABELS] *)
Definition ORDER_STATUS_LABELS (s : OrderStatus) : string :=
  match s with
  | queued => "Wartet"
  | building => "Im Bau"
  | completed => "Bereit"
  | cancelled => "Gestoppt"
  end.

(** The value of the [hangarUsage] memo. *)
Record HangarUsage : Type := mkUsage {
  used : Z;
  reserved : Z;
  free : Z
}.

(** One element of the [queueEntries] memo:
    [{...order, blueprintName, remaining, hangarSlots}]. *)
Record QueueEntry : Type := mkEntry {
  entry_order : ShipBuildOrder;
  blueprintName : string;
  remaining : Z;
  hangarSlots : Z
}.

(** The store actions the view can call. *)
Inductive StoreAction : Type :=
  | startOrder (blueprintId : string) (quantity : Z)
  | cancelOrder (orderId : string).

(** The button element of [renderOrderActions], by its handler and text. *)
Record Button : Type := mkButton {
  onClick : StoreAction;
  caption : string
}.

Section Catalog.

(** The catalog constant imported from [@/constants]. *)
Variable SHIP_BLUEPRINTS : list ShipBlueprint.

(** [SHIP_BLUEPRINTS.find((entry) => entry.id === blueprintId)] *)
Definition find_blueprint (blueprintId : string) : option ShipBlueprint :=
  List.find (fun entry => bool_decide (bp_id entry = blueprintId))
    SHIP_BLUEPRINTS.

(** The reducer over [Object.entries(inventory)]. *)
Definition used_step (acc : Z) (entry : string * Z) : Z :=
  match find_blueprint entry.1 with
  | None => acc
  | Some blueprint => acc + bp_hangarSlots blueprint * entry.2
  end.

(** The reducer over [queue]. *)
Definition reserved_step (acc : Z) (order : ShipBuildOrder) : Z :=
  if bool_decide (order_status order = completed) then acc
  else match find_blueprint (order_blueprintId order) with
       | None => acc
       | Some blueprint =>
           acc + bp_hangarSlots blueprint * order_quantity order
       end.

Definition used_of_entries (entries : list (string * Z)) : Z :=
  foldl used_step 0 entries.

(** [Object.entries(inventory).reduce(..., 0)]; the entries are taken in
    the order [map_to_list] gives them, and [used_of_entries_perm] below
    shows the sum is the same in any other order. *)
Definition compute_used (inventory : gmap string Z) : Z :=
  used_of_entries (map_to_list inventory).

(** [queue.reduce(..., 0)] *)
Definition compute_reserved (queue : list ShipBuildOrder) : Z :=
  foldl reserved_step 0 queue.

Definition hangarUsage (inventory : gmap string Z)
    (queue : list ShipBuildOrder) (hangarCapacity : Z) : HangarUsage :=
  let u := compute_used inventory in
  let r := compute_reserved queue in
  {| used := u; reserved := r; free := Z.max (hangarCapacity - u - r) 0 |}.

(** What one inventory entry and one order add to the sums. *)
Definition entry_slots (entry : string * Z) : Z := used_step 0 entry.
Definition order_slots (order : ShipBuildOrder) : Z := reserved_step 0 order.

(** The body of the [.map] in [queueEntries]; [now] is the value of the
    one [Date.now()] read at the start of the memo. *)
Definition queue_entry (now : Z) (order : ShipBuildOrder) : QueueEntry :=
  let blueprint := find_blueprint (order_blueprintId order) in
  {| entry_order := order;
     blueprintName :=
       match blueprint with
       | Some b => bp_name b
       | None => order_blueprintId order
       end;
     remaining :=
       if bool_decide (order_status order = completed) then 0
       else Z.max (order_endTime order - now) 0;
     hangarSlots :=
       match blueprint with
       | Some b => bp_hangarSlots b
       | None => 0
       end |}.

End Catalog.

(** [Array.prototype.sort] with the comparator
    [(a, b) => a.startTime - b.startTime]. The sort is stable, so its
    result is fixed by the comparator; it is computed here by insertion
    from the right, which keeps equal start times in their queue order. *)
Fixpoint insert_by_startTime (a : ShipBuildOrder) (sorted : list ShipBuildOrder)
    : list ShipBuildOrder :=
  match sorted with
  | [] => [a]
  | b :: rest =>
      if order_startTime a - order_startTime b <=? 0
      then a :: b :: rest
      else b :: insert_by_startTime a rest
  end.

Definition sort_by_startTime (l : list ShipBuildOrder) : list ShipBuildOrder :=
  foldr insert_by_startTime [] l.

(** [queueEntries] as a function of the clock reading and the queue value. *)
Definition queueEntries (SHIP_BLUEPRINTS : list ShipBlueprint) (now : Z)
    (queue : list ShipBuildOrder) : list QueueEntry :=
  map (queue_entry SHIP_BLUEPRINTS now) (sort_by_startTime queue).

(** *** Arrays as heap objects

    [.sort] works in place. To say that the store's queue is left alone,
    arrays live in a heap and are named by references. *)
Definition ref : Type := positive.
Definition Heap : Type := gmap positive (list ShipBuildOrder).

(** [[...queue]]: a new array with the same elements. *)
Definition spread (queue : ref) (h : Heap) : ref * Heap :=
  let copy := fresh (dom h) in
  (copy, <[copy := default [] (h !! queue)]> h).

(** [arr.sort(cmp)]: sorts the array behind [arr] in place, returns [arr]. *)
Definition sort_in_place (arr : ref) (h : Heap) : ref * Heap :=
  (arr, alter sort_by_startTime arr h).

(** The [queueEntries] memo run against the heap: the result array (by
    value) and the heap it leaves. *)
Definition queueEntries_run (SHIP_BLUEPRINTS : list ShipBlueprint) (now : Z)
    (queue : ref) (h : Heap) : list QueueEntry * Heap :=
  let '(copy, h1) := spread queue h in
  let '(sorted, h2) := sort_in_place copy h1 in
  (map (queue_entry SHIP_BLUEPRINTS now) (default [] (h2 !! sorted)), h2).

(** *** Quantity inputs *)

(** The updater passed to [setQuantities] by [handleQuantityChange]. *)
Definition handleQuantityChange (blueprintId : string) (value : Z)
    (prev : gmap string Z) : gmap string Z :=
  <[blueprintId := Z.max 1 (Z.min 10 value)]> prev.

(** [quantities[ship.id] ?? 1] *)
Definition quantity_of (quantities : gmap string Z) (shipId : string) : Z :=
  default 1 (quantities !! shipId).

(** What the user can do with a blueprint card. *)
Inductive CardEvent : Type :=
  | change_quantity (shipId : string) (value : Z)
  | click_start (shipId : string).

(** The component state ([quantities]) and the store actions called so
    far, oldest first. *)
Record ViewState : Type := mkView {
  quantities : gmap string Z;
  called : list StoreAction
}.

(** [useState<Record<string, number>>({})] *)
Definition initial_view : ViewState :=
  {| quantities := ∅; called := [] |}.

Definition view_step (st : ViewState) (ev : CardEvent) : ViewState :=
  match ev with
  | change_quantity shipId value =>
      {| quantities := handleQuantityChange shipId value (quantities st);
         called := called st |}
  | click_start shipId =>
      {| quantities := quantities st;
         called := called st
                   ++ [startOrder shipId (quantity_of (quantities st) shipId)] |}
  end.

Definition view_run (evs : list CardEvent) : ViewState :=
  foldl view_step initial_view evs.

(** *** Order actions *)

Definition renderOrderActions (order : ShipBuildOrder) : option Button :=
  if bool_decide (order_status order <> queued) then None
  else Some {| onClick := cancelOrder (order_id order);
               caption := "Auftrag abbrechen" |}.

(** The action cells of the order list: [renderOrderActions(order)] for
    each element of [queueEntries]. *)
Definition rendered_actions (SHIP_BLUEPRINTS : list ShipBlueprint) (now : Z)
    (queue : list ShipBuildOrder) : list (option Button) :=
  map (fun e => renderOrderActions (entry_order e))
    (queueEntries SHIP_BLUEPRINTS now queue).

(** *** Durations *)

(** [s.padStart(targetLength, c)] for a one-character pad string. *)
Definition padStart (targetLength : nat) (c : Ascii.ascii) (s : string) : string :=
  String.string_of_list_ascii (replicate (targetLength - String.length s) c) +:+ s.

(** [formatDuration]; [(n).toString()] of an integer is [pretty n]. The
    divisions are only reached with [ms > 0], where [Math.floor(a / b)] and
    [a % b] are [a / b] and [a mod b]. *)
Definition formatDuration (ms : Z) : string :=
  if ms <=? 0 then "fertig"
  else
    let minutes := ms / 60000 in
    let seconds := padStart 2 "0"%char (pretty ((ms mod 60000) / 1000)) in
    if 60 <=? minutes then
      let hours := minutes / 60 in
      let remainingMinutes := padStart 2 "0"%char (pretty (minutes mod 60)) in
      pretty hours +:+ ":" +:+ remainingMinutes +:+ ":" +:+ seconds
    else padStart 2 "0"%char (pretty minutes) +:+ ":" +:+ seconds.

(** The text of the second column of an order row: the status label and
    [formatDuration(order.remaining)]. *)
Definition order_status_cell (e : QueueEntry) : string * string :=
  (ORDER_STATUS_LABELS (order_status (entry_order e)), formatDuration (remaining e)).

(** [order.hangarSlots * order.quantity], as shown in an order row. *)
Definition displayed_slots (e : QueueEntry) : Z :=
  hangarSlots e * order_quantity (entry_order e).

(** *** Inventory entries *)

(** One element of the [inventoryEntries] memo. *)
Record InventoryEntry : Type := mkInventoryEntry {
  inv_id : string;
  inv_name : string;
  inv_amount : Z;
  inv_slots : Z
}.

Section InventoryList.

Variable SHIP_BLUEPRINTS : list ShipBlueprint.

(** The body of the [.map] in [inventoryEntries]. *)
Definition inventory_entry (entry : string * Z) : InventoryEntry :=
  let blueprint := find_blueprint SHIP_BLUEPRINTS entry.1 in
  {| inv_id := entry.1;
     inv_name :=
       match blueprint with
       | Some b => bp_name b
       | None => entry.1
       end;
     inv_amount := entry.2;
     inv_slots :=
       match blueprint with
       | Some b => bp_hangarSlots b
       | None => 0
       end * entry.2 |}.

(** [.filter(([, amount]) => amount > 0).map(...)] *)
Definition inventoryEntries_of (entries : list (string * Z)) : list InventoryEntry :=
  map inventory_entry (List.filter (fun entry => 0 <? entry.2) entries).

(** [inventoryEntries]; as for [compute_used], the entries are taken in
    the order of [map_to_list]. *)
Definition inventoryEntries (inventory : gmap string Z) : list InventoryEntry :=
  inventoryEntries_of (map_to_list inventory).

End InventoryList.

End WerftView.

(** ** useGameTick.ts *)

Module GameTick.

(** The store actions the interval callback calls. *)
Inductive Call : Type :=
  | gameTick
  | advanceMissions (now : Z)
  | advanceShipyard (now : Z).

(** Timer callbacks, by what they are: the arrow function the hook passes
    to [setInterval], or a callback of some other part of the page. *)
Inductive Callback : Type :=
  | heartbeat
  | foreign.

#[global] Instance Callback_eq_dec : EqDecision Callback.
Proof. solve_decision. Defined.

Record Timer : Type := mkTimer {
  callback : Callback;
  delay : Z
}.

(** The part of the browser the hook touches: how often [Date.now()] has
    been read, the store actions called so far (oldest first), the next
    interval id and the intervals that are registered. *)
Record Browser : Type := mkBrowser {
  clock_reads : nat;
  calls : list Call;
  next_timer : nat;
  timers : gmap nat Timer
}.

(** Computations over the browser. *)
Definition M (A : Type) : Type := Browser -> A * Browser.

#[global] Instance M_ret : MRet M := fun A (a : A) (w : Browser) => (a, w).
#[global] Instance M_bind : MBind M :=
  fun A B (k : A -> M B) (m : M A) (w : Browser) =>
    let '(a, w1) := m w in k a w1.

Definition clearInterval (intervalId : nat) : M unit :=
  fun w =>
    (tt, {| clock_reads := clock_reads w; calls := calls w;
            next_timer := next_timer w;
            timers := delete intervalId (timers w) |}).

Definition setInterval (cb : Callback) (ms : Z) : M nat :=
  fun w =>
    (next_timer w,
     {| clock_reads := clock_reads w; calls := calls w;
        next_timer := S (next_timer w);
        timers := <[next_timer w := {| callback := cb; delay := ms |}]> (timers w) |}).

Definition call (c : Call) : M unit :=
  fun w =>
    (tt, {| clock_reads := clock_reads w; calls := calls w ++ [c];
            next_timer := next_timer w; timers := timers w |}).

Section Hook.

(** [Date_now k] is what the [k]-th read of the clock returns. *)
Variable Date_now : nat -> Z.

(** The constant imported from [@/constants]. *)
Variable TICK_INTERVAL : Z.

Definition read_clock : M Z :=
  fun w =>
    (Date_now (clock_reads w),
     {| clock_reads := S (clock_reads w); calls := calls w;
        next_timer := next_timer w; timers := timers w |}).

(** The body of the interval callback. *)
Definition tick : M unit :=
  now ← read_clock;
  call gameTick;;
  call (advanceMissions now);;
  call (advanceShipyard now).

(** The effect: registers the interval. Its result is what the returned
    cleanup closure captures, [intervalId]. *)
Definition effect : M nat := setInterval heartbeat TICK_INTERVAL.

(** [() => clearInterval(intervalId)] *)
Definition cleanup (intervalId : nat) : M unit := clearInterval intervalId.

(** What happens to a component that uses the hook: React commits the
    effect (on mount, and again when a dependency changed, after running
    the cleanup of the previous run), React unmounts the component (running
    the pending cleanup), or the browser fires a timer. *)
Inductive Event : Type :=
  | commit
  | unmount
  | timer_fires (intervalId : nat).

Definition run_pending (pending : option nat) : M unit :=
  match pending with
  | Some intervalId => cleanup intervalId
  | None => mret tt
  end.

(** The browser runs the callback of a registered interval. Only the
    hook's own callback is followed. *)
Definition fire (intervalId : nat) : M unit :=
  fun w =>
    match timers w !! intervalId with
    | Some {| callback := heartbeat |} => tick w
    | _ => (tt, w)
    end.

(** One event; [pending] is the cleanup React holds for the hook. *)
Definition step (pending : option nat) (ev : Event) : M (option nat) :=
  match ev with
  | commit =>
      run_pending pending;;
      intervalId ← effect;
      mret (Some intervalId)
  | unmount =>
      run_pending pending;;
      mret None
  | timer_fires intervalId =>
      fire intervalId;;
      mret pending
  end.

Fixpoint run (evs : list Event) (pending : option nat) : M (option nat) :=
  match evs with
  | [] => mret pending
  | ev :: rest => pending' ← step pending ev; run rest pending'
  end.

End Hook.

(** The registered intervals that run the hook's callback. *)
Definition heartbeat_timers (w : Browser) : gmap nat Timer :=
  filter (fun it => callback it.2 = heartbeat) (timers w).

(** The heartbeat intervals there should be, given the cleanup React holds
    for the hook: none when it holds none, else the one the cleanup
    captured. *)
Definition expected_timers (TICK_INTERVAL : Z) (pending : option nat)
    : gmap nat Timer :=
  match pending with
  | None => ∅
  | Some intervalId =>
      {[intervalId := {| callback := heartbeat; delay := TICK_INTERVAL |}]}
  end.

(** Interval ids are handed out in increasing order: every registered
    interval has an id below the next one. *)
Definition ids_below_next (w : Browser) : Prop :=
  forall intervalId t, timers w !! intervalId = Some t ->
    (intervalId < next_timer w)%nat.

(** The store calls of the callback run that makes the [k]-th clock read. *)
Definition tick_calls (Date_now : nat -> Z) (k : nat) : list Call :=
  [gameTick; advanceMissions (Date_now k); advanceShipyard (Date_now k)].

(** How many of the events are timer firings. *)
Definition firings (evs : list Event) : nat :=
  length (List.filter (fun ev => match ev with timer_fires _ => true | _ => false end) evs).

End GameTick.

(** ** The directory store *)

Module Directory.

(** A value caught by [catch (error)]: an [Error] instance with its
    message, or anything else. *)
Inductive Thrown : Type :=
  | thrown_Error (message : string)
  | thrown_other.

(** How a promise settles. *)
Inductive Settled (A : Type) : Type :=
  | fulfilled (value : A)
  | rejected (reason : Thrown).
Arguments fulfilled {A} value.
Arguments rejected {A} reason.

(** [{ id: string; color: string }] *)
Record Alliance : Type := mkAlliance {
  alliance_id : string;
  alliance_color : string
}.

(** [buildAllianceColorMap]: [acc[alliance.id] = alliance.color] from left
    to right, so a later entry with the same id wins. *)
Definition buildAllianceColorMap (alliances : list Alliance) : gmap string string :=
  foldl (fun acc alliance => <[alliance_id alliance := alliance_color alliance]> acc)
    ∅ alliances.

Section Store.

(** The entity types of [@/types]; the store only moves them around. *)
Variables GalaxySystem Player PlayerProfile : Type.

Record DirectoryState : Type := mkState {
  systems : list GalaxySystem;
  players : list Player;
  favorites : list string;
  openProfileId : option string;
  profiles : gmap string PlayerProfile;
  currentPlayerId : string;
  allianceColors : gmap string string;
  isLoading : bool;
  isReady : bool;
  error : option string
}.

Record DirectorySnapshot : Type := mkSnapshot {
  snap_systems : list GalaxySystem;
  snap_players : list Player;
  snap_currentPlayerId : string;
  snap_allianceColors : gmap string string
}.

(** What [fetchDirectorySnapshot] resolves to. *)
Record DirectoryResponse : Type := mkResponse {
  resp_systems : list GalaxySystem;
  resp_players : list Player;
  resp_currentPlayerId : string;
  resp_alliances : list Alliance
}.

(** The constants of [@/lib/mockFactory]. *)
Variable SYSTEM_SNAPSHOT : list GalaxySystem.
Variable PLAYER_DIRECTORY : list Player.
Variable CURRENT_PLAYER_ID : string.
Variable ALLIANCE_DIRECTORY : list Alliance.

(** The initial state of the store. *)
Definition initial_state : DirectoryState :=
  {| systems := []; players := []; favorites := []; openProfileId := None;
     profiles := ∅; currentPlayerId := ""; allianceColors := ∅;
     isLoading := false; isReady := false; error := None |}.

Definition createFallbackSnapshot : DirectorySnapshot :=
  {| snap_systems := SYSTEM_SNAPSHOT;
     snap_players := PLAYER_DIRECTORY;
     snap_currentPlayerId := CURRENT_PLAYER_ID;
     snap_allianceColors :=
       buildAllianceColorMap
         (map (fun entry => {| alliance_id := alliance_id entry;
                               alliance_color := alliance_color entry |})
            ALLIANCE_DIRECTORY) |}.

(** [applySnapshot(set, snapshot)]: one [set] of six fields. *)
Definition applySnapshot (snapshot : DirectorySnapshot) (s : DirectoryState)
    : DirectoryState :=
  {| systems := snap_systems snapshot;
     players := snap_players snapshot;
     favorites := favorites s;
     openProfileId := openProfileId s;
     profiles := profiles s;
     currentPlayerId := snap_currentPlayerId snapshot;
     allianceColors := snap_allianceColors snapshot;
     isLoading := false;
     isReady := true;
     error := error s |}.

Definition mapResponseToSnapshot (response : DirectorySnapshot) : DirectorySnapshot :=
  {| snap_systems := snap_systems response;
     snap_players := snap_players response;
     snap_currentPlayerId := snap_currentPlayerId response;
     snap_allianceColors := snap_allianceColors response |}.

(** [set({ isLoading: true, error: undefined })] *)
Definition set_loading (s : DirectoryState) : DirectoryState :=
  {| systems := systems s; players := players s; favorites := favorites s;
     openProfileId := openProfileId s; profiles := profiles s;
     currentPlayerId := currentPlayerId s; allianceColors := allianceColors s;
     isLoading := true; isReady := isReady s; error := None |}.

(** [set({ error: ... })] *)
Definition set_error (message : string) (s : DirectoryState) : DirectoryState :=
  {| systems := systems s; players := players s; favorites := favorites s;
     openProfileId := openProfileId s; profiles := profiles s;
     currentPlayerId := currentPlayerId s; allianceColors := allianceColors s;
     isLoading := isLoading s; isReady := isReady s; error := Some message |}.

(** [error instanceof Error ? error.message : '...'] *)
Definition error_text (e : Thrown) : string :=
  match e with
  | thrown_Error message => message
  | thrown_other => "Unbekannter Fehler beim Laden des Verzeichnisses."
  end.

(** The [try] block of [refresh], from the point where the awaited fetch
    has settled: the state it leaves, or the value it throws. *)
Definition refresh_try (fetched : Settled DirectoryResponse) (s : DirectoryState)
    : Thrown + DirectoryState :=
  match fetched with
  | rejected e => inl e
  | fulfilled response =>
      inr (applySnapshot
             (mapResponseToSnapshot
                {| snap_systems := resp_systems response;
                   snap_players := resp_players response;
                   snap_currentPlayerId := resp_currentPlayerId response;
                   snap_allianceColors :=
                     buildAllianceColorMap (resp_alliances response) |})
             s)
  end.

(** The [catch] block of [refresh]. *)
Definition refresh_catch (e : Thrown) (s : DirectoryState) : DirectoryState :=
  let fallback := createFallbackSnapshot in
  set_error (error_text e) (applySnapshot fallback s).

(** [refresh]. While the fetch is awaited other actions of the store may
    run; [meanwhile] is what they do to the state. The result is how the
    promise returned by [refresh] settles, and the state at that point. *)
Definition refresh (meanwhile : DirectoryState -> DirectoryState)
    (fetched : Settled DirectoryResponse) (s : DirectoryState)
    : Settled unit * DirectoryState :=
  let s1 := set_loading s in
  let s2 := meanwhile s1 in
  match refresh_try fetched s2 with
  | inr s3 => (fulfilled tt, s3)
  | inl e => (fulfilled tt, refresh_catch e s2)
  end.

End Store.

Arguments systems {_ _ _} _.
Arguments players {_ _ _} _.
Arguments favorites {_ _ _} _.
Arguments openProfileId {_ _ _} _.
Arguments profiles {_ _ _} _.
Arguments currentPlayerId {_ _ _} _.
Arguments allianceColors {_ _ _} _.
Arguments isLoading {_ _ _} _.
Arguments isReady {_ _ _} _.
Arguments error {_ _ _} _.
Arguments snap_systems {_ _} _.
Arguments snap_players {_ _} _.
Arguments snap_currentPlayerId {_ _} _.
Arguments snap_allianceColors {_ _} _.

End Directory.

(** ** The directory store: profiles, favourites and planets *)

Module DirectoryActions.

(** [GalaxyPlanet], with the fields the store reads or writes. *)
Record GalaxyPlanet : Type := mkPlanet {
  planet_id : string;
  planet_ownerId : option string;
  planet_allianceId : option string;
  planet_slot : Z;
  planet_biome : string
}.

(** [Player], with the fields the store reads. *)
Record Player : Type := mkPlayer {
  player_id : string;
  player_name : string;
  player_allianceId : option string
}.

Record PlayerPlanetSummary : Type := mkSummary {
  planetId : string;
  systemId : string;
  slot : Z;
  biome : string;
  coordinates : string;
  isFavorite : bool
}.

Record PlayerProfile : Type := mkProfile {
  profile_id : string;
  tagline : string;
  lastActiveAt : Z;
  allianceId : option string;
  planets : list PlayerPlanetSummary
}.

Section Actions.

(** What a [GalaxySystem] holds besides its id and planets (its place on
    the map); the store passes it on untouched. *)
Variable Position : Type.

Record GalaxySystem : Type := mkSystem {
  system_id : string;
  system_position : Position;
  system_planets : list GalaxyPlanet
}.

(** The helper imported from [@/lib/hex]. *)
Variable formatSystemCoordinate : GalaxySystem -> string.

(** The constants of [@/lib/mockFactory]. *)
Variable SYSTEM_SNAPSHOT : list GalaxySystem.
Variable PLAYER_DIRECTORY : list Player.
Variable CURRENT_PLAYER_ID : string.
Variable ALLIANCE_DIRECTORY : list Directory.Alliance.

Local Notation State := (Directory.DirectoryState GalaxySystem Player PlayerProfile).

(** [set({ openProfileId })] *)
Definition set_openProfileId (value : option string) (s : State) : State :=
  {| Directory.systems := Directory.systems s;
     Directory.players := Directory.players s;
     Directory.favorites := Directory.favorites s;
     Directory.openProfileId := value;
     Directory.profiles := Directory.profiles s;
     Directory.currentPlayerId := Directory.currentPlayerId s;
     Directory.allianceColors := Directory.allianceColors s;
     Directory.isLoading := Directory.isLoading s;
     Directory.isReady := Directory.isReady s;
     Directory.error := Directory.error s |}.

(** [set({ profiles })] *)
Definition set_profiles (value : gmap string PlayerProfile) (s : State) : State :=
  {| Directory.systems := Directory.systems s;
     Directory.players := Directory.players s;
     Directory.favorites := Directory.favorites s;
     Directory.openProfileId := Directory.openProfileId s;
     Directory.profiles := value;
     Directory.currentPlayerId := Directory.currentPlayerId s;
     Directory.allianceColors := Directory.allianceColors s;
     Directory.isLoading := Directory.isLoading s;
     Directory.isReady := Directory.isReady s;
     Directory.error := Directory.error s |}.

(** [set({ favorites, profiles })] *)
Definition set_favorites_profiles (favs : list string)
    (value : gmap string PlayerProfile) (s : State) : State :=
  {| Directory.systems := Directory.systems s;
     Directory.players := Directory.players s;
     Directory.favorites := favs;
     Directory.openProfileId := Directory.openProfileId s;
     Directory.profiles := value;
     Directory.currentPlayerId := Directory.currentPlayerId s;
     Directory.allianceColors := Directory.allianceColors s;
     Directory.isLoading := Directory.isLoading s;
     Directory.isReady := Directory.isReady s;
     Directory.error := Directory.error s |}.

(** [set({ systems, profiles })] *)
Definition set_systems_profiles (syss : list GalaxySystem)
    (value : gmap string PlayerProfile) (s : State) : State :=
  {| Directory.systems := syss;
     Directory.players := Directory.players s;
     Directory.favorites := Directory.favorites s;
     Directory.openProfileId := Directory.openProfileId s;
     Directory.profiles := value;
     Directory.currentPlayerId := Directory.currentPlayerId s;
     Directory.allianceColors := Directory.allianceColors s;
     Directory.isLoading := Directory.isLoading s;
     Directory.isReady := Directory.isReady s;
     Directory.error := Directory.error s |}.

(** [{ ...profile, planets }] *)
Definition with_planets (profile : PlayerProfile) (ps : list PlayerPlanetSummary)
    : PlayerProfile :=
  {| profile_id := profile_id profile; tagline := tagline profile;
     lastActiveAt := lastActiveAt profile; allianceId := allianceId profile;
     planets := ps |}.

(** [{ ...planet, isFavorite }] *)
Definition with_isFavorite (planet : PlayerPlanetSummary) (flag : bool)
    : PlayerPlanetSummary :=
  {| planetId := planetId planet; systemId := systemId planet;
     slot := slot planet; biome := biome planet;
     coordinates := coordinates planet; isFavorite := flag |}.

(** [planet.ownerId === playerId] *)
Definition owned_by (playerId : string) (planet : GalaxyPlanet) : bool :=
  bool_decide (planet_ownerId planet = Some playerId).

(** The object pushed by [deriveProfile] for an owned planet. *)
Definition summary_of (favorites : list string) (system : GalaxySystem)
    (planet : GalaxyPlanet) : PlayerPlanetSummary :=
  {| planetId := planet_id planet;
     systemId := system_id system;
     slot := planet_slot planet;
     biome := planet_biome planet;
     coordinates := formatSystemCoordinate system +:+ ":" +:+ pretty (planet_slot planet);
     isFavorite := bool_decide (planet_id planet ∈ favorites) |}.

(** [deriveProfile]; [now] is the value of its [Date.now()]. *)
Definition deriveProfile (now : Z) (playerId : string) (systems : list GalaxySystem)
    (favorites : list string) (players : list Player) : PlayerProfile :=
  let player := List.find (fun entry => bool_decide (player_id entry = playerId)) players in
  let playerIndex :=
    Z.max 0 (match list_find (fun entry => player_id entry = playerId) players with
             | Some (i, _) => Z.of_nat i
             | None => -1
             end) in
  let planets :=
    flat_map (fun system =>
                map (summary_of favorites system)
                  (List.filter (owned_by playerId) (system_planets system)))
      systems in
  {| profile_id := playerId;
     tagline :=
       match player with
       | Some p => player_name p
       | None => "Kommandant"
       end +:+ " Â· Arkana Flotte";
     lastActiveAt := now - playerIndex * 60 * 60 * 1000;
     allianceId :=
       match player with
       | Some p => player_allianceId p
       | None => None
       end;
     planets := planets |}.

(** [initialize]: nothing when the store is ready or loading, else
    [refresh]. *)
Definition initialize (meanwhile : State -> State)
    (fetched : Directory.Settled (Directory.DirectoryResponse GalaxySystem Player))
    (s : State) : Directory.Settled unit * State :=
  if Directory.isReady s || Directory.isLoading s
  then (Directory.fulfilled tt, s)
  else Directory.refresh GalaxySystem Player PlayerProfile SYSTEM_SNAPSHOT
         PLAYER_DIRECTORY CURRENT_PLAYER_ID ALLIANCE_DIRECTORY meanwhile fetched s.

(** The updater [openPlayerProfile] runs once [fetchPlayerProfile] has
    settled: the fetched profile with its favourite flags recomputed, or
    the derived one. *)
Definition settle_profile (now : Z) (playerId : string)
    (fetched : Directory.Settled PlayerProfile) (state : State) : State :=
  match fetched with
  | Directory.fulfilled profile =>
      set_profiles
        (<[playerId :=
             with_planets profile
               (map (fun planet =>
                       with_isFavorite planet
                         (bool_decide (planetId planet ∈ Directory.favorites state)))
                  (planets profile))]> (Directory.profiles state))
        state
  | Directory.rejected _ =>
      set_profiles
        (<[playerId :=
             deriveProfile now playerId (Directory.systems state)
               (Directory.favorites state) (Directory.players state)]>
           (Directory.profiles state))
        state
  end.

(** The property names every plain object inherits from
    [Object.prototype]; each of them reads as a function or an object. *)
Definition Object_prototype_keys : list string :=
  [ "constructor"; "__defineGetter__"; "__defineSetter__"; "hasOwnProperty";
    "__lookupGetter__"; "__lookupSetter__"; "isPrototypeOf";
    "propertyIsEnumerable"; "toString"; "valueOf"; "__proto__";
    "toLocaleString" ].

(** [if (profiles[playerId])]: the read goes through the prototype chain,
    so it is truthy for a cached profile and also for the name of an
    inherited member. *)
Definition profile_is_truthy (profiles : gmap string PlayerProfile)
    (playerId : string) : bool :=
  bool_decide (is_Some (profiles !! playerId))
  || bool_decide (playerId ∈ Object_prototype_keys).

(** [openPlayerProfile]: the state once everything it started has run.
    When [profiles[playerId]] is truthy it only sets [openProfileId];
    otherwise the fetch is awaited ([meanwhile] is what other actions do in
    between) and the updater runs. *)
Definition openPlayerProfile (now : Z) (playerId : string)
    (meanwhile : State -> State) (fetched : Directory.Settled PlayerProfile)
    (s : State) : State :=
  let s1 := set_openProfileId (Some playerId) s in
  if profile_is_truthy (Directory.profiles s1) playerId
  then s1
  else settle_profile now playerId fetched (meanwhile s1).

Definition closePlayerProfile (s : State) : State := set_openProfileId None s.

(** The [planets.map] of [favoritePlanet]. *)
Definition flip_planet (target : string) (isFavorite : bool)
    (planet : PlayerPlanetSummary) : PlayerPlanetSummary :=
  if bool_decide (planetId planet = target)
  then with_isFavorite planet (negb isFavorite)
  else planet.

Definition favoritePlanet (target : string) (state : State) : State :=
  let isFavorite := bool_decide (target ∈ Directory.favorites state) in
  let favorites :=
    if isFavorite
    then List.filter (fun id => bool_decide (id <> target)) (Directory.favorites state)
    else Directory.favorites state ++ [target] in
  let profiles :=
    (fun profile =>
       with_planets profile (map (flip_planet target isFavorite) (planets profile)))
    <$> Directory.profiles state in
  set_favorites_profiles favorites profiles state.

(** The loop of [getPlanetById]. *)
Fixpoint find_planet (target : string) (systems : list GalaxySystem)
    : option GalaxyPlanet :=
  match systems with
  | [] => None
  | system :: rest =>
      match List.find (fun entry => bool_decide (planet_id entry = target))
              (system_planets system) with
      | Some planet => Some planet
      | None => find_planet target rest
      end
  end.

Definition getPlanetById (target : string) (s : State) : option GalaxyPlanet :=
  find_planet target (Directory.systems s).

Definition getSystemById (target : string) (s : State) : option GalaxySystem :=
  List.find (fun system => bool_decide (system_id system = target)) (Directory.systems s).

(** A string is truthy when it is not empty. *)
Definition truthy (text : string) : bool := negb (bool_decide (text = "")).

(** [getAllianceColor]; the argument is [None] for [undefined]. *)
Definition getAllianceColor (target : option string) (s : State) : option string :=
  match target with
  | None => None
  | Some a =>
      if truthy a then
        let fallback :=
          Directory.alliance_color
            <$> List.find (fun entry => bool_decide (Directory.alliance_id entry = a))
                  ALLIANCE_DIRECTORY in
        match Directory.allianceColors s !! a with
        | Some color => if truthy color then Some color else fallback
        | None => fallback
        end
      else None
  end.

(** The inner [planets.map] of [setPlanetOwner]. *)
Definition reassign (target ownerId : string) (alliance : option string)
    (planet : GalaxyPlanet) : GalaxyPlanet :=
  if bool_decide (planet_id planet <> target) then planet
  else {| planet_id := planet_id planet;
          planet_ownerId := Some ownerId;
          planet_allianceId := alliance;
          planet_slot := planet_slot planet;
          planet_biome := planet_biome planet |}.

(** [{ ...system, planets }] *)
Definition reassign_system (target ownerId : string) (alliance : option string)
    (system : GalaxySystem) : GalaxySystem :=
  {| system_id := system_id system;
     system_position := system_position system;
     system_planets := map (reassign target ownerId alliance) (system_planets system) |}.

(** What [previousOwnerId] holds after the maps: the [ownerId] of the last
    planet with the id, [None] when there is none or it has no owner. *)
Definition previous_owner (target : string) (systems : list GalaxySystem)
    : option string :=
  match last (List.filter (fun planet => bool_decide (planet_id planet = target))
                (flat_map system_planets systems)) with
  | Some planet => planet_ownerId planet
  | None => None
  end.

(** [setPlanetOwner]; [now] is what [Date.now()] returns while it runs.
    The previous owner's profile is derived first, the new owner's last. *)
Definition setPlanetOwner (now : Z) (target ownerId : string)
    (alliance : option string) (state : State) : State :=
  let updatedSystems :=
    map (reassign_system target ownerId alliance) (Directory.systems state) in
  let derive playerId :=
    deriveProfile now playerId updatedSystems (Directory.favorites state)
      (Directory.players state) in
  let profiles1 :=
    match previous_owner target (Directory.systems state) with
    | Some previousOwnerId =>
        if truthy previousOwnerId
        then <[previousOwnerId := derive previousOwnerId]> (Directory.profiles state)
        else Directory.profiles state
    | None => Directory.profiles state
    end in
  set_systems_profiles updatedSystems (<[ownerId := derive ownerId]> profiles1) state.

(** What [refresh] does once the awaited fetch has settled. *)
Definition refresh_settled
    (fetched : Directory.Settled (Directory.DirectoryResponse GalaxySystem Player))
    (s : State) : State :=
  match Directory.refresh_try GalaxySystem Player PlayerProfile fetched s with
  | inr s' => s'
  | inl e =>
      Directory.refresh_catch GalaxySystem Player PlayerProfile SYSTEM_SNAPSHOT
        PLAYER_DIRECTORY CURRENT_PLAYER_ID ALLIANCE_DIRECTORY e s
  end.

(** The synchronous steps of the store: the actions as they are called,
    and the continuations of [refresh] and [openPlayerProfile] as they run
    when their fetch settles, with any other steps in between. *)
Inductive Step : Type :=
  | refresh_called
  | refresh_fetch_settled
      (fetched : Directory.Settled (Directory.DirectoryResponse GalaxySystem Player))
  | profile_opened (playerId : string)
  | profile_fetch_settled (now : Z) (playerId : string)
      (fetched : Directory.Settled PlayerProfile)
  | profile_closed
  | planet_favorited (target : string)
  | planet_owner_set (now : Z) (target ownerId : string) (alliance : option string).

Definition dispatch (s : State) (step : Step) : State :=
  match step with
  | refresh_called => Directory.set_loading GalaxySystem Player PlayerProfile s
  | refresh_fetch_settled fetched => refresh_settled fetched s
  | profile_opened playerId => set_openProfileId (Some playerId) s
  | profile_fetch_settled now playerId fetched => settle_profile now playerId fetched s
  | profile_closed => closePlayerProfile s
  | planet_favorited target => favoritePlanet target s
  | planet_owner_set now target ownerId alliance =>
      setPlanetOwner now target ownerId alliance s
  end.

Definition dispatch_all (steps : list Step) (s : State) : State :=
  foldl dispatch s steps.

(** Every stored profile marks a planet as favourite exactly when the
    planet is among the favourites. *)
Definition flags_consistent (s : State) : Prop :=
  forall playerId profile planet,
    Directory.profiles s !! playerId = Some profile ->
    In planet (planets profile) ->
    isFavorite planet = bool_decide (planetId planet ∈ Directory.favorites s).

End Actions.

Arguments system_id {_} _.
Arguments system_position {_} _.
Arguments system_planets {_} _.

End DirectoryActions.

(** ** The shipyard store's [advance], after the specification *)

Module Shipyard.

(** Modelled from the spec: the state of the shipyard store, of which the
    sources only show the selectors ([queue], [inventory]); "Inventory:
    mapping from blueprint id to completed-unit count". *)
Record State : Type := mkState {
  queue : list ShipBuildOrder;
  inventory : gmap string Z
}.

Section Advance.

(** Modelled from the spec: the catalog the store consults,
    "lookup(blueprintId) -> BlueprintSpec | undefined". *)
Variable lookup : string -> option ShipBlueprint.

(** Modelled from the spec: the admission policy, which the spec leaves
    open: whether a queued order whose start was deferred starts at [now].
    Under the reference semantics no start is deferred and the policy
    admits nothing. *)
Variable admits : Z -> ShipBuildOrder -> bool.

(** Modelled from the spec: "any corrupt order (e.g., referencing a
    removed blueprint) is skipped". *)
Definition known (order : ShipBuildOrder) : bool :=
  bool_decide (is_Some (lookup (order_blueprintId order))).

(** Modelled from the spec: the orders [advance(now)] completes, "every
    order with status = Building and now >= endTime". *)
Definition eligible (now : Z) (order : ShipBuildOrder) : bool :=
  bool_decide (order_status order = building)
  && (order_endTime order <=? now)
  && known order.

(** Modelled from the spec: the orders [advance(now)] promotes, "orders
    with status = Queued that have not yet started are promoted to
    Building if the admission policy defers start". *)
Definition promotable (now : Z) (order : ShipBuildOrder) : bool :=
  bool_decide (order_status order = queued)
  && admits now order
  && known order.

(** Modelled from the spec: an order with another status. *)
Definition with_status (status : OrderStatus) (order : ShipBuildOrder)
    : ShipBuildOrder :=
  {| order_id := order_id order;
     order_blueprintId := order_blueprintId order;
     order_quantity := order_quantity order;
     order_status := status;
     order_startTime := order_startTime order;
     order_endTime := order_endTime order |}.

(** Modelled from the spec: "set status = Completed". *)
Definition complete (order : ShipBuildOrder) : ShipBuildOrder :=
  with_status completed order.

(** Modelled from the spec: "promoted to Building". *)
Definition promote (order : ShipBuildOrder) : ShipBuildOrder :=
  with_status building order.

(** Modelled from the spec: "credit quantity units of the blueprint to
    Inventory". *)
Definition credit (inv : gmap string Z) (order : ShipBuildOrder) : gmap string Z :=
  <[order_blueprintId order :=
      default 0 (inv !! order_blueprintId order) + order_quantity order]> inv.

(** Modelled from the spec: what [advance(now)] does to one order, by the
    status the order has when the call begins: a Building order that is
    due is completed, a Queued order that the policy admits is promoted,
    and there is "no side effect for orders already Completed or
    Cancelled". Each order makes at most one transition in a call, whatever
    happens to the other orders. *)
Definition advance_order (now : Z) (order : ShipBuildOrder) : ShipBuildOrder :=
  match order_status order with
  | building => if eligible now order then complete order else order
  | queued => if promotable now order then promote order else order
  | completed => order
  | cancelled => order
  end.

(** Modelled from the spec: what one order adds to the inventory, the
    quantity of an order that is completed by this call. *)
Definition credit_order (now : Z) (inv : gmap string Z) (order : ShipBuildOrder)
    : gmap string Z :=
  if eligible now order then credit inv order else inv.

(** Modelled from the spec: the store's [advance(now)] action, which is not
    among the sources. All orders are handled in one call. *)
Definition advance (now : Z) (st : State) : State :=
  {| queue := map (advance_order now) (queue st);
     inventory := foldl (credit_order now) (inventory st) (queue st) |}.

End Advance.

(** Modelled from the spec: the reference semantics, in which no start is
    deferred. *)
Definition admits_nothing (now : Z) (order : ShipBuildOrder) : bool := false.

(** Modelled from the spec: a policy that defers the start of an order to
    its [startTime]. *)
Definition admits_from_startTime (now : Z) (order : ShipBuildOrder) : bool :=
  order_startTime order <=? now.

End Shipyard.

(** * Vocabulary of the statements *)

(** The order the comparator [(a, b) => a.startTime - b.startTime] sorts
    by. *)
Definition starts_no_later (a b : ShipBuildOrder) : Prop :=
  order_startTime a <= order_startTime b.

Definition in_1_10 (quantity : Z) : Prop := 1 <= quantity <= 10.

(** A [startOrder] call with a quantity from 1 to 10; any other action. *)
Definition starts_1_10 (action : WerftView.StoreAction) : Prop :=
  match action with
  | WerftView.startOrder _ quantity => in_1_10 quantity
  | WerftView.cancelOrder _ => True
  end.

(** Every stored quantity is a clamped one. *)
Definition stored_in_1_10 (m : gmap string Z) : Prop :=
  forall shipId quantity, m !! shipId = Some quantity -> in_1_10 quantity.

(** A cell of the action column is empty or holds a button that cancels
    some queued order of the queue. *)
Definition cancels_queued_order (queue : list ShipBuildOrder)
    (cell : option WerftView.Button) : Prop :=
  match cell with
  | None => True
  | Some button =>
      exists order, In order queue /\ order_status order = queued
                    /\ WerftView.onClick button = WerftView.cancelOrder (order_id order)
  end.

(** The slots of the rows of the hangar list, added up. *)
Definition total_inventory_slots (rows : list WerftView.InventoryEntry) : Z :=
  foldr (fun row acc => WerftView.inv_slots row + acc) 0 rows.

(** The slots an order row shows, counted unless the order is completed. *)
Definition reserving_slots (e : WerftView.QueueEntry) : Z :=
  if bool_decide (order_status (WerftView.entry_order e) = completed) then 0
  else WerftView.displayed_slots e.

Definition total_reserving_slots (rows : list WerftView.QueueEntry) : Z :=
  foldr (fun row acc => reserving_slots row + acc) 0 rows.

(** * Sample data *)

(** A small catalog and queue used for the concrete evaluations. *)
Definition demo_catalog : list ShipBlueprint :=
  [ {| bp_id := "korvette"; bp_name := "Korvette";
       bp_hangarSlots := 2; bp_buildTimeSeconds := 60 |};
    {| bp_id := "fregatte"; bp_name := "Fregatte";
       bp_hangarSlots := 5; bp_buildTimeSeconds := 300 |} ].

Definition demo_order (status : OrderStatus) : ShipBuildOrder :=
  {| order_id := "order-1"; order_blueprintId := "korvette";
     order_quantity := 3; order_status := status;
     order_startTime := 1000; order_endTime := 61000 |}.

(** An order whose blueprint has been removed from the catalog. *)
Definition orphan_order : ShipBuildOrder :=
  {| order_id := "order-2"; order_blueprintId := "zerstoerer";
     order_quantity := 4; order_status := building;
     order_startTime := 2000; order_endTime := 90000 |}.

(** A browser in which the hook's interval 0 is registered, and a clock
    that advances by a second per read. *)
Definition demo_browser : GameTick.Browser :=
  {| GameTick.clock_reads := 2;
     GameTick.calls := [];
     GameTick.next_timer := 1;
     GameTick.timers :=
       {[0%nat := {| GameTick.callback := GameTick.heartbeat;
                     GameTick.delay := 1000 |}]} |}.

Definition demo_clock (k : nat) : Z := 1700000000000 + 1000 * Z.of_nat k.

(** A page on which no heartbeat is registered yet. *)
Definition idle_browser : GameTick.Browser :=
  {| GameTick.clock_reads := 0;
     GameTick.calls := [];
     GameTick.next_timer := 3;
     GameTick.timers :=
       {[2%nat := {| GameTick.callback := GameTick.foreign;
                     GameTick.delay := 250 |}]} |}.

(** A one-system galaxy with two players, for the directory store. *)
Definition demo_system : DirectoryActions.GalaxySystem unit :=
  {| DirectoryActions.system_id := "s-1";
     DirectoryActions.system_position := tt;
     DirectoryActions.system_planets :=
       [ {| DirectoryActions.planet_id := "p-1";
            DirectoryActions.planet_ownerId := Some "alice";
            DirectoryActions.planet_allianceId := Some "a-1";
            DirectoryActions.planet_slot := 1;
            DirectoryActions.planet_biome := "desert" |};
         {| DirectoryActions.planet_id := "p-2";
            DirectoryActions.planet_ownerId := None;
            DirectoryActions.planet_allianceId := None;
            DirectoryActions.planet_slot := 2;
            DirectoryActions.planet_biome := "ice" |} ] |}.

Definition demo_players : list DirectoryActions.Player :=
  [ {| DirectoryActions.player_id := "alice";
       DirectoryActions.player_name := "Alice";
       DirectoryActions.player_allianceId := Some "a-1" |};
    {| DirectoryActions.player_id := "bob";
       DirectoryActions.player_name := "Bob";
       DirectoryActions.player_allianceId := None |} ].

Definition demo_alliances : list Directory.Alliance :=
  [ {| Directory.alliance_id := "a-1"; Directory.alliance_color := "#c0392b" |} ].

Definition demo_coordinate (system : DirectoryActions.GalaxySystem unit) : string :=
  DirectoryActions.system_id system.

(** A store that is ready, with one favourite and no cached profile. *)
Definition demo_store
    : Directory.DirectoryState (DirectoryActions.GalaxySystem unit)
        DirectoryActions.Player DirectoryActions.PlayerProfile :=
  {| Directory.systems := [demo_system];
     Directory.players := demo_players;
     Directory.favorites := ["p-2"];
     Directory.openProfileId := None;
     Directory.profiles := ∅;
     Directory.currentPlayerId := "alice";
     Directory.allianceColors := ∅;
     Directory.isLoading := false;
     Directory.isReady := true;
     Directory.error := None |}.

(** A run of the store: a profile is opened and its fetch fails, planets
    are marked and unmarked, a planet changes hands. *)
Definition demo_steps : list (DirectoryActions.Step unit) :=
  [ DirectoryActions.profile_opened unit "alice";
    DirectoryActions.planet_favorited unit "p-1";
    DirectoryActions.profile_fetch_settled unit 5000 "alice"
      (Directory.rejected Directory.thrown_other);
    DirectoryActions.planet_favorited unit "p-2";
    DirectoryActions.planet_owner_set unit 6000 "p-1" "bob" None;
    DirectoryActions.planet_favorited unit "p-1" ].

(** * Properties *)

(** ** Hangar usage *)

Section HangarFacts.

Import WerftView.

Variable SHIP_BLUEPRINTS : list ShipBlueprint.

Local Notation used_step := (used_step SHIP_BLUEPRINTS).
Local Notation reserved_step := (reserved_step SHIP_BLUEPRINTS).
Local Notation entry_slots := (entry_slots SHIP_BLUEPRINTS).
Local Notation order_slots := (order_slots SHIP_BLUEPRINTS).
Local Notation used_of_entries := (used_of_entries SHIP_BLUEPRINTS).
Local Notation compute_used := (compute_used SHIP_BLUEPRINTS).
Local Notation compute_reserved := (compute_reserved SHIP_BLUEPRINTS).
Local Notation find_blueprint := (find_blueprint SHIP_BLUEPRINTS).

Lemma used_step_acc acc entry : used_step acc entry = acc + entry_slots entry.
Proof.
  unfold WerftView.entry_slots, WerftView.used_step.
  destruct (find_blueprint entry.1); lia.
Qed.

Lemma reserved_step_acc acc order :
  reserved_step acc order = acc + order_slots order.
Proof.
  unfold WerftView.order_slots, WerftView.reserved_step.
  case_bool_decide; [lia|].
  destruct (find_blueprint (order_blueprintId order)); lia.
Qed.

Lemma foldl_used_acc entries acc :
  foldl used_step acc entries = acc + used_of_entries entries.
Proof.
  unfold WerftView.used_of_entries. revert acc.
  induction entries as [|e es IH]; intros acc; simpl; [lia|].
  rewrite (IH (used_step acc e)), (IH (used_step 0 e)), !used_step_acc. lia.
Qed.

Lemma foldl_reserved_acc queue acc :
  foldl reserved_step acc queue = acc + compute_reserved queue.
Proof.
  unfold WerftView.compute_reserved. revert acc.
  induction queue as [|o os IH]; intros acc; simpl; [lia|].
  rewrite (IH (reserved_step acc o)), (IH (reserved_step 0 o)),
    !reserved_step_acc. lia.
Qed.

Lemma used_of_entries_cons e es :
  used_of_entries (e :: es) = entry_slots e + used_of_entries es.
Proof.
  unfold WerftView.used_of_entries at 1. simpl. rewrite foldl_used_acc.
  reflexivity.
Qed.

Lemma compute_reserved_cons o os :
  compute_reserved (o :: os) = order_slots o + compute_reserved os.
Proof.
  unfold WerftView.compute_reserved at 1. simpl. rewrite foldl_reserved_acc.
  reflexivity.
Qed.

Lemma compute_reserved_app q1 q2 :
  compute_reserved (q1 ++ q2) = compute_reserved q1 + compute_reserved q2.
Proof.
  induction q1 as [|o os IH]; simpl.
  - unfold WerftView.compute_reserved at 2. simpl. lia.
  - rewrite !compute_reserved_cons, IH. lia.
Qed.

(** The sum over the inventory does not depend on the order in which
    [Object.entries] lists the keys. *)
Lemma used_of_entries_perm es1 es2 :
  Permutation es1 es2 -> used_of_entries es1 = used_of_entries es2.
Proof.
  induction 1 as [|e l1 l2 _ IH|e1 e2 l|l1 l2 l3 _ IH1 _ IH2].
  - reflexivity.
  - rewrite !used_of_entries_cons, IH. reflexivity.
  - rewrite !used_of_entries_cons. lia.
  - congruence.
Qed.

Lemma compute_used_insert_fresh (inventory : gmap string Z) blueprintId amount :
  inventory !! blueprintId = None ->
  compute_used (<[blueprintId := amount]> inventory)
  = entry_slots (blueprintId, amount) + compute_used inventory.
Proof.
  intros Hnone. unfold WerftView.compute_used.
  rewrite (used_of_entries_perm _ _ (map_to_list_insert _ _ _ Hnone)).
  apply used_of_entries_cons.
Qed.

(** Setting a key adds its slots to what the other keys hold. *)
Lemma compute_used_insert (inventory : gmap string Z) blueprintId amount :
  compute_used (<[blueprintId := amount]> inventory)
  = entry_slots (blueprintId, amount) + compute_used (delete blueprintId inventory).
Proof.
  rewrite <- insert_delete_eq.
  apply compute_used_insert_fresh, lookup_delete_eq.
Qed.

(** What an order adds to [reserved], by cases: nothing when it is
    completed or its blueprint is unknown, slots times quantity otherwise
    (so also when it is cancelled). *)
Lemma order_slots_cases order :
  order_slots order =
    match order_status order, find_blueprint (order_blueprintId order) with
    | completed, _ => 0
    | _, None => 0
    | _, Some blueprint => bp_hangarSlots blueprint * order_quantity order
    end.
Proof.
  unfold WerftView.order_slots, WerftView.reserved_step.
  destruct (order_status order); simpl;
    destruct (find_blueprint (order_blueprintId order)); reflexivity.
Qed.

(** A cancelled order of a known blueprint holds its slots in [reserved]. *)
Lemma cancelled_order_slots order blueprint before after :
  order_status order = cancelled ->
  find_blueprint (order_blueprintId order) = Some blueprint ->
  compute_reserved (before ++ order :: after)
  = compute_reserved (before ++ after)
    + bp_hangarSlots blueprint * order_quantity order.
Proof.
  intros Hst Hbp.
  rewrite !compute_reserved_app, compute_reserved_cons, order_slots_cases.
  rewrite Hst, Hbp. lia.
Qed.

End HangarFacts.

(** C1. The claim says that [reserved] counts only queued and building
    orders. The reducer leaves out completed orders only: here a
    cancelled order of three two-slot ships still holds six reserved slots
    and leaves four of ten free, where the claim has zero reserved and ten
    free. *)
Theorem cancelled_order_still_reserved :
  let usage := WerftView.hangarUsage demo_catalog ∅ [demo_order cancelled] 10 in
  WerftView.reserved usage = 6 /\ WerftView.free usage = 4.
Proof. vm_compute. split; reflexivity. Qed.

(** C2, as stated, fails: three two-slot ships in a hangar of capacity
    four give used = 6, reserved = 0, free = 0, which do not add up to 4. *)
Lemma sum_exceeds_capacity_when_overcommitted :
  let usage := WerftView.hangarUsage demo_catalog {["korvette" := 3]} [] 4 in
  WerftView.used usage + WerftView.reserved usage + WerftView.free usage <> 4.
Proof. vm_compute. discriminate. Qed.

(** C2, amended. For every catalog, inventory, queue and capacity, [free]
    is [max (hangarCapacity - used - reserved) 0]: it is never negative,
    and used + reserved + free is the larger of hangarCapacity and
    used + reserved, hence hangarCapacity exactly when the hangar is not
    over-committed. *)
Theorem hangarUsage_free_clamped :
  forall (SHIP_BLUEPRINTS : list ShipBlueprint) (inventory : gmap string Z)
         (queue : list ShipBuildOrder) (hangarCapacity : Z),
    let usage := WerftView.hangarUsage SHIP_BLUEPRINTS inventory queue hangarCapacity in
    0 <= WerftView.free usage
    /\ WerftView.used usage + WerftView.reserved usage + WerftView.free usage
       = Z.max hangarCapacity (WerftView.used usage + WerftView.reserved usage)
    /\ (WerftView.used usage + WerftView.reserved usage + WerftView.free usage
        = hangarCapacity
        <-> WerftView.used usage + WerftView.reserved usage <= hangarCapacity).
Proof.
  intros cat inventory queue cap. unfold WerftView.hangarUsage. simpl. lia.
Qed.

Lemma hangarUsage_free_clamped_witness :
  let usage := WerftView.hangarUsage demo_catalog {["korvette" := 3]}
                 [demo_order building] 20 in
  0 <= WerftView.free usage
  /\ WerftView.used usage + WerftView.reserved usage + WerftView.free usage = 20.
Proof.
  intros usage.
  pose proof (hangarUsage_free_clamped demo_catalog {["korvette" := 3]}
                [demo_order building] 20) as (Hfree & _ & Hiff).
  split; [exact Hfree|]. apply Hiff. vm_compute. discriminate.
Defined.

(** C5. An inventory key and an order whose blueprint id is not in the
    catalog are skipped: the reducers hand back the accumulator they got,
    [used] is what the other keys hold, [reserved] is what the other
    orders hold, and the order's queue entry has [hangarSlots] 0 (and
    shows the blueprint id as its name). *)
Theorem missing_blueprint_contributes_nothing :
  forall (SHIP_BLUEPRINTS : list ShipBlueprint) (blueprintId : string)
         (order : ShipBuildOrder),
    WerftView.find_blueprint SHIP_BLUEPRINTS blueprintId = None ->
    order_blueprintId order = blueprintId ->
    forall (acc amount now : Z) (inventory : gmap string Z)
           (before after : list ShipBuildOrder),
      WerftView.used_step SHIP_BLUEPRINTS acc (blueprintId, amount) = acc
      /\ WerftView.reserved_step SHIP_BLUEPRINTS acc order = acc
      /\ WerftView.compute_used SHIP_BLUEPRINTS (<[blueprintId := amount]> inventory)
         = WerftView.compute_used SHIP_BLUEPRINTS (delete blueprintId inventory)
      /\ WerftView.compute_reserved SHIP_BLUEPRINTS (before ++ order :: after)
         = WerftView.compute_reserved SHIP_BLUEPRINTS (before ++ after)
      /\ WerftView.hangarSlots (WerftView.queue_entry SHIP_BLUEPRINTS now order) = 0
      /\ WerftView.hangarSlots (WerftView.queue_entry SHIP_BLUEPRINTS now order)
         * order_quantity order = 0
      /\ WerftView.blueprintName (WerftView.queue_entry SHIP_BLUEPRINTS now order)
         = blueprintId.
Proof.
  intros cat bid order Hmiss Hbid acc amount now inventory before after.
  assert (Hused : WerftView.used_step cat acc (bid, amount) = acc).
  { unfold WerftView.used_step. simpl. rewrite Hmiss. reflexivity. }
  assert (Hres : forall a, WerftView.reserved_step cat a order = a).
  { intros a. unfold WerftView.reserved_step. rewrite Hbid, Hmiss.
    case_bool_decide; reflexivity. }
  repeat split.
  - exact Hused.
  - apply Hres.
  - rewrite compute_used_insert. unfold WerftView.entry_slots, WerftView.used_step.
    simpl. rewrite Hmiss. lia.
  - rewrite !compute_reserved_app, compute_reserved_cons.
    unfold WerftView.order_slots. rewrite Hres. lia.
  - unfold WerftView.queue_entry. simpl. rewrite Hbid, Hmiss. reflexivity.
  - unfold WerftView.queue_entry. simpl. rewrite Hbid, Hmiss. reflexivity.
  - unfold WerftView.queue_entry. simpl. rewrite Hbid, Hmiss. reflexivity.
Qed.

Lemma missing_blueprint_witness :
  WerftView.compute_reserved demo_catalog ([demo_order building] ++ orphan_order :: [])
  = WerftView.compute_reserved demo_catalog ([demo_order building] ++ [])
  /\ WerftView.hangarSlots (WerftView.queue_entry demo_catalog 5000 orphan_order) = 0.
Proof.
  pose proof (missing_blueprint_contributes_nothing demo_catalog "zerstoerer"
                orphan_order eq_refl eq_refl 0 7 5000 ∅ [demo_order building] [])
    as (_ & _ & _ & Hreserved & Hslots & _).
  split; [exact Hreserved | exact Hslots].
Defined.

(** ** The derived queue *)

Section SortFacts.

Import WerftView.

Lemma insert_by_startTime_perm a l :
  Permutation (insert_by_startTime a l) (a :: l).
Proof.
  induction l as [|b rest IH]; simpl.
  - reflexivity.
  - destruct (order_startTime a - order_startTime b <=? 0).
    + reflexivity.
    + rewrite IH. apply perm_swap.
Qed.

Lemma sort_by_startTime_perm l : Permutation (sort_by_startTime l) l.
Proof.
  induction l as [|a rest IH]; simpl.
  - constructor.
  - rewrite insert_by_startTime_perm. constructor. exact IH.
Qed.

Lemma insert_by_startTime_HdRel a b l :
  starts_no_later b a -> HdRel starts_no_later b l ->
  HdRel starts_no_later b (insert_by_startTime a l).
Proof.
  intros Hba Hhd. destruct l as [|c rest]; simpl.
  - constructor. exact Hba.
  - destruct (order_startTime a - order_startTime c <=? 0).
    + constructor. exact Hba.
    + constructor. inversion Hhd; assumption.
Qed.

Lemma insert_by_startTime_sorted a l :
  Sorted starts_no_later l -> Sorted starts_no_later (insert_by_startTime a l).
Proof.
  induction 1 as [|b rest Hsorted IH Hhd]; simpl.
  - repeat constructor.
  - destruct (order_startTime a - order_startTime b <=? 0) eqn:Hcmp.
    + constructor; [constructor; assumption|].
      constructor. unfold starts_no_later. lia.
    + constructor; [exact IH|].
      apply insert_by_startTime_HdRel; [|exact Hhd].
      unfold starts_no_later. lia.
Qed.

Lemma sort_by_startTime_sorted l : Sorted starts_no_later (sort_by_startTime l).
Proof.
  induction l as [|a rest IH]; simpl.
  - constructor.
  - apply insert_by_startTime_sorted, IH.
Qed.

(** Stability: orders that start at the same time keep their queue order. *)
Lemma insert_by_startTime_same_start t a l :
  List.filter (fun o => order_startTime o =? t) (insert_by_startTime a l)
  = List.filter (fun o => order_startTime o =? t) (a :: l).
Proof.
  induction l as [|b rest IH]; [reflexivity|].
  cbn [insert_by_startTime].
  destruct (order_startTime a - order_startTime b <=? 0) eqn:Hcmp;
    [reflexivity|].
  cbn [List.filter] in *. rewrite IH.
  destruct (order_startTime a =? t) eqn:Ha;
    destruct (order_startTime b =? t) eqn:Hb; try reflexivity.
  lia.
Qed.

Lemma sort_by_startTime_stable t l :
  List.filter (fun o => order_startTime o =? t) (sort_by_startTime l)
  = List.filter (fun o => order_startTime o =? t) l.
Proof.
  induction l as [|a rest IH]; [reflexivity|].
  cbn [sort_by_startTime foldr].
  change (foldr insert_by_startTime [] rest) with (sort_by_startTime rest).
  rewrite insert_by_startTime_same_start. cbn [List.filter].
  rewrite IH. reflexivity.
Qed.

(** Each entry carries its order unchanged. *)
Lemma queueEntries_orders SHIP_BLUEPRINTS now queue :
  map entry_order (queueEntries SHIP_BLUEPRINTS now queue)
  = sort_by_startTime queue.
Proof.
  unfold queueEntries. rewrite map_map. simpl. apply map_id.
Qed.

(** Run against the heap, the memo sorts a copy: every array that was
    there before is left as it was. *)
Lemma queueEntries_run_spec SHIP_BLUEPRINTS now (queue : ref) (h : Heap) items :
  h !! queue = Some items ->
  queueEntries_run SHIP_BLUEPRINTS now queue h
  = (queueEntries SHIP_BLUEPRINTS now items,
     <[fresh (dom h) := sort_by_startTime items]> h).
Proof.
  intros Hq. unfold queueEntries_run, spread, sort_in_place, Heap in *.
  rewrite Hq. simpl.
  rewrite lookup_alter_eq, lookup_insert_eq. simpl.
  rewrite alter_insert_eq. reflexivity.
Qed.

Lemma fresh_ref_unused (h : Heap) (r : ref) (items : list ShipBuildOrder) :
  h !! r = Some items -> fresh (dom h) <> r.
Proof.
  intros Hr Heq. assert (Hin : r ∈ dom h) by (apply elem_of_dom; eauto).
  rewrite <- Heq in Hin at 1. exact (is_fresh _ Hin).
Qed.

End SortFacts.

(** C7, as stated, fails: the entries hold [remaining], computed from
    [Date.now()], so the same queue gives different entries at different
    times. *)
Lemma queueEntries_depends_on_clock :
  WerftView.queueEntries demo_catalog 1000 [demo_order building]
  <> WerftView.queueEntries demo_catalog 31000 [demo_order building].
Proof. vm_compute. discriminate. Qed.

(** C7, amended. The derived queue is a function of the queue and of the
    one clock reading taken when it is computed. Its entries carry the
    orders of the queue, the same orders, in ascending order of startTime;
    which orders, and in which sequence, does not depend on the clock
    reading. The sort runs on a copy: the array of the store, and every
    other array, is as it was. *)
Theorem queueEntries_sorted_copy :
  forall (SHIP_BLUEPRINTS : list ShipBlueprint) (now : Z) (queue : WerftView.ref)
         (h : WerftView.Heap) (items : list ShipBuildOrder),
    h !! queue = Some items ->
    let result := WerftView.queueEntries_run SHIP_BLUEPRINTS now queue h in
    result.1 = WerftView.queueEntries SHIP_BLUEPRINTS now items
    /\ Permutation (map WerftView.entry_order result.1) items
    /\ Sorted starts_no_later (map WerftView.entry_order result.1)
    /\ map WerftView.entry_order result.1 = WerftView.sort_by_startTime items
    /\ result.2 !! queue = Some items
    /\ (forall (r : WerftView.ref) (l : list ShipBuildOrder),
          h !! r = Some l -> result.2 !! r = Some l).
Proof.
  intros cat now queue h items Hq result. subst result.
  rewrite (queueEntries_run_spec cat now queue h items Hq). simpl.
  rewrite queueEntries_orders.
  repeat split.
  - apply sort_by_startTime_perm.
  - apply sort_by_startTime_sorted.
  - unfold WerftView.Heap in *.
    rewrite lookup_insert_ne; [exact Hq|]. eapply fresh_ref_unused; eauto.
  - intros r l Hr. unfold WerftView.Heap in *.
    rewrite lookup_insert_ne; [exact Hr|]. eapply fresh_ref_unused; eauto.
Qed.

Lemma queueEntries_sorted_copy_witness :
  let items := [orphan_order; demo_order queued] in
  let result :=
    WerftView.queueEntries_run demo_catalog 5000 1%positive {[1%positive := items]} in
  map WerftView.entry_order result.1 = [demo_order queued; orphan_order]
  /\ result.2 !! 1%positive = Some items.
Proof.
  intros items result.
  pose proof (queueEntries_sorted_copy demo_catalog 5000 1%positive
                {[1%positive := items]} items eq_refl)
    as (_ & _ & _ & Horders & Hqueue & _).
  split; [exact Horders | exact Hqueue].
Defined.

(** ** Quantities *)

Section QuantityFacts.

Import WerftView.

Lemma clamp_in_1_10 value : in_1_10 (Z.max 1 (Z.min 10 value)).
Proof. unfold in_1_10. lia. Qed.

Lemma handleQuantityChange_stored shipId value (prev : gmap string Z) :
  stored_in_1_10 prev -> stored_in_1_10 (handleQuantityChange shipId value prev).
Proof.
  intros Hprev k q. unfold handleQuantityChange.
  destruct (decide (shipId = k)) as [->|Hne].
  - rewrite lookup_insert_eq. intros [= <-]. apply clamp_in_1_10.
  - rewrite lookup_insert_ne by exact Hne. apply Hprev.
Qed.

Lemma quantity_of_in_1_10 (m : gmap string Z) shipId :
  stored_in_1_10 m -> in_1_10 (quantity_of m shipId).
Proof.
  intros Hm. unfold quantity_of.
  destruct (m !! shipId) as [q|] eqn:Hq; simpl.
  - eapply Hm, Hq.
  - unfold in_1_10. lia.
Qed.

Lemma view_step_invariant st ev :
  stored_in_1_10 (quantities st) /\ Forall starts_1_10 (called st) ->
  stored_in_1_10 (quantities (view_step st ev))
  /\ Forall starts_1_10 (called (view_step st ev)).
Proof.
  intros [Hq Hc]. destruct ev as [shipId value|shipId]; simpl.
  - split; [apply handleQuantityChange_stored, Hq | exact Hc].
  - split; [exact Hq|].
    apply Forall_app. split; [exact Hc|].
    constructor; [|constructor]. simpl. apply quantity_of_in_1_10, Hq.
Qed.

Lemma view_run_invariant evs :
  stored_in_1_10 (quantities (view_run evs))
  /\ Forall starts_1_10 (called (view_run evs)).
Proof.
  induction evs as [|ev evs IH] using rev_ind.
  - split; [|constructor]. intros k q Hk. simpl in Hk.
    rewrite lookup_empty in Hk. discriminate.
  - unfold view_run in *. rewrite foldl_snoc. apply view_step_invariant, IH.
Qed.

End QuantityFacts.

(** C9. After every sequence of edits of quantity fields and clicks on
    "Bau starten", the quantity the view shows for any blueprint (the
    stored value, 1 when there is none) lies in 1..10, every [startOrder]
    call made so far was given a quantity in 1..10, the quantity of a
    blueprint with no stored value is 1, and right after an edit the
    quantity is [max 1 (min 10 value)]. *)
Theorem quantity_stays_in_1_10 :
  forall (evs : list WerftView.CardEvent) (shipId : string) (value : Z),
    in_1_10 (WerftView.quantity_of (WerftView.quantities (WerftView.view_run evs)) shipId)
    /\ Forall starts_1_10 (WerftView.called (WerftView.view_run evs))
    /\ WerftView.quantity_of (WerftView.quantities WerftView.initial_view) shipId = 1
    /\ (forall quantities : gmap string Z,
          WerftView.quantity_of (delete shipId quantities) shipId = 1)
    /\ WerftView.quantity_of
         (WerftView.quantities
            (WerftView.view_run (evs ++ [WerftView.change_quantity shipId value])))
         shipId
       = Z.max 1 (Z.min 10 value).
Proof.
  intros evs shipId value.
  destruct (view_run_invariant evs) as [Hq Hc].
  split; [|split; [|split; [|split]]].
  - apply quantity_of_in_1_10, Hq.
  - exact Hc.
  - reflexivity.
  - intros quantities. unfold WerftView.quantity_of.
    rewrite lookup_delete_eq. reflexivity.
  - unfold WerftView.view_run. rewrite foldl_snoc. simpl.
    unfold WerftView.quantity_of, WerftView.handleQuantityChange.
    rewrite lookup_insert_eq. reflexivity.
Qed.

(** ** Order actions *)

Lemma renderOrderActions_cell queue order :
  In order queue -> cancels_queued_order queue (WerftView.renderOrderActions order).
Proof.
  intros Hin. unfold WerftView.renderOrderActions.
  case_bool_decide as Hst; simpl; [exact I|].
  exists order. repeat split; [exact Hin|].
  destruct (decide (order_status order = queued)) as [Heq|Hne]; [exact Heq|].
  contradiction.
Qed.

(** C10. For an order that is building, completed or cancelled (anything
    but queued) [renderOrderActions] returns null; and in the rendered
    order list every cancel button there is cancels a queued order. *)
Theorem cancel_control_only_when_queued :
  forall (order : ShipBuildOrder),
    order_status order <> queued ->
    WerftView.renderOrderActions order = None
    /\ forall (SHIP_BLUEPRINTS : list ShipBlueprint) (now : Z)
              (queue : list ShipBuildOrder),
         Forall (cancels_queued_order queue)
           (WerftView.rendered_actions SHIP_BLUEPRINTS now queue).
Proof.
  intros order Hst. split.
  - unfold WerftView.renderOrderActions. rewrite bool_decide_eq_true_2; auto.
  - intros cat now queue. unfold WerftView.rendered_actions.
    rewrite <- (map_map WerftView.entry_order WerftView.renderOrderActions).
    rewrite queueEntries_orders.
    apply List.Forall_forall. intros cell Hcell.
    apply List.in_map_iff in Hcell as (o & <- & Ho).
    apply renderOrderActions_cell.
    eapply Permutation_in; [apply sort_by_startTime_perm | exact Ho].
Qed.

Lemma cancel_control_witness :
  WerftView.renderOrderActions (demo_order building) = None
  /\ WerftView.renderOrderActions (demo_order completed) = None
  /\ WerftView.renderOrderActions (demo_order cancelled) = None.
Proof.
  split; [|split].
  - apply (cancel_control_only_when_queued (demo_order building)). discriminate.
  - apply (cancel_control_only_when_queued (demo_order completed)). discriminate.
  - apply (cancel_control_only_when_queued (demo_order cancelled)). discriminate.
Defined.

(** ** The heartbeat *)

(** Unfolds the sequencing of browser computations. *)
Ltac unfold_M := unfold mbind, GameTick.M_bind, mret, GameTick.M_ret.

Section TickFacts.

Import GameTick.

Variable Date_now : nat -> Z.
Variable TICK_INTERVAL : Z.

Local Notation tick := (tick Date_now).
Local Notation fire := (fire Date_now).
Local Notation effect := (effect TICK_INTERVAL).
Local Notation step := (step Date_now TICK_INTERVAL).
Local Notation run := (run Date_now TICK_INTERVAL).
Local Notation expected_timers := (expected_timers TICK_INTERVAL).

(** The whole effect of one run of the interval callback. *)
Lemma tick_result w :
  tick w =
    (tt, {| clock_reads := S (clock_reads w);
            calls := calls w ++ [gameTick;
                                 advanceMissions (Date_now (clock_reads w));
                                 advanceShipyard (Date_now (clock_reads w))];
            next_timer := next_timer w;
            timers := timers w |}).
Proof.
  unfold GameTick.tick, read_clock, call; unfold_M. simpl.
  rewrite <- !app_assoc. reflexivity.
Qed.

Lemma tick_timers w : timers (tick w).2 = timers w.
Proof. rewrite tick_result. reflexivity. Qed.

Lemma fire_timers intervalId w : timers (fire intervalId w).2 = timers w.
Proof.
  unfold GameTick.fire.
  destruct (timers w !! intervalId) as [[[|] ms]|]; simpl;
    [apply tick_timers | reflexivity | reflexivity].
Qed.

Lemma heartbeat_timers_clear intervalId w :
  heartbeat_timers (clearInterval intervalId w).2
  = delete intervalId (heartbeat_timers w).
Proof. unfold heartbeat_timers. simpl. apply map_filter_delete. Qed.

Lemma run_pending_clears pending w :
  heartbeat_timers w = expected_timers pending ->
  heartbeat_timers (run_pending pending w).2 = ∅.
Proof.
  intros Hinv. destruct pending as [intervalId|].
  - unfold run_pending, cleanup. rewrite heartbeat_timers_clear, Hinv.
    apply delete_singleton_eq.
  - exact Hinv.
Qed.

Lemma effect_registers w :
  heartbeat_timers w = ∅ ->
  heartbeat_timers (effect w).2 = expected_timers (Some (effect w).1).
Proof.
  intros Hnone. unfold GameTick.effect, setInterval, heartbeat_timers in *.
  simpl. rewrite map_filter_insert_True by reflexivity.
  rewrite Hnone. apply insert_empty.
Qed.

Lemma step_invariant pending ev w :
  heartbeat_timers w = expected_timers pending ->
  heartbeat_timers (step pending ev w).2 = expected_timers (step pending ev w).1.
Proof.
  intros Hinv. destruct ev as [| |intervalId].
  - unfold GameTick.step; unfold_M.
    pose proof (run_pending_clears pending w Hinv) as Hclear.
    destruct (run_pending pending w) as [[] w1]. simpl in Hclear.
    pose proof (effect_registers w1 Hclear) as Hreg.
    destruct (effect w1) as [newId w2]. exact Hreg.
  - unfold GameTick.step; unfold_M.
    pose proof (run_pending_clears pending w Hinv) as Hclear.
    destruct (run_pending pending w) as [[] w1]. exact Hclear.
  - unfold GameTick.step; unfold_M.
    pose proof (fire_timers intervalId w) as Hsame.
    destruct (fire intervalId w) as [[] w1]. simpl in *.
    unfold heartbeat_timers in *. rewrite Hsame. exact Hinv.
Qed.

Lemma run_invariant evs pending w :
  heartbeat_timers w = expected_timers pending ->
  heartbeat_timers (run evs pending w).2 = expected_timers (run evs pending w).1.
Proof.
  revert pending w. induction evs as [|ev rest IH]; intros pending w Hinv.
  - exact Hinv.
  - cbn [GameTick.run]. unfold_M.
    pose proof (step_invariant pending ev w Hinv) as Hstep.
    destruct (step pending ev w) as [pending' w1]. apply IH, Hstep.
Qed.

Lemma run_app evs1 evs2 pending w :
  run (evs1 ++ evs2) pending w
  = run evs2 (run evs1 pending w).1 (run evs1 pending w).2.
Proof.
  revert pending w. induction evs1 as [|ev rest IH]; intros pending w.
  - reflexivity.
  - cbn [app GameTick.run]. unfold_M.
    destruct (step pending ev w) as [pending' w1]. apply IH.
Qed.

Lemma run_unmount pending w :
  run [unmount] pending w = (None, (run_pending pending w).2).
Proof.
  cbn [GameTick.run GameTick.step]. unfold_M.
  destruct (run_pending pending w) as [[] w1]. reflexivity.
Qed.

End TickFacts.

(** C3. When a registered heartbeat interval fires, the callback runs
    once: the clock is read exactly once, and after [gameTick] both
    [advanceMissions] and [advanceShipyard] are called with the value of
    that one read. *)
Theorem heartbeat_passes_one_timestamp :
  forall (Date_now : nat -> Z) (intervalId : nat) (ms : Z) (w : GameTick.Browser),
    GameTick.timers w !! intervalId
    = Some {| GameTick.callback := GameTick.heartbeat; GameTick.delay := ms |} ->
    let now := Date_now (GameTick.clock_reads w) in
    let w' := (GameTick.fire Date_now intervalId w).2 in
    GameTick.fire Date_now intervalId w = GameTick.tick Date_now w
    /\ GameTick.clock_reads w' = S (GameTick.clock_reads w)
    /\ GameTick.calls w'
       = GameTick.calls w ++ [GameTick.gameTick;
                              GameTick.advanceMissions now;
                              GameTick.advanceShipyard now].
Proof.
  intros Date_now intervalId ms w Hreg now w'. subst now w'.
  assert (Hfire : GameTick.fire Date_now intervalId w = GameTick.tick Date_now w).
  { unfold GameTick.fire. rewrite Hreg. reflexivity. }
  rewrite Hfire, tick_result. simpl. auto.
Qed.

Lemma heartbeat_timestamp_witness :
  GameTick.calls (GameTick.fire demo_clock 0 demo_browser).2
  = [GameTick.gameTick;
     GameTick.advanceMissions 1700000002000;
     GameTick.advanceShipyard 1700000002000].
Proof.
  exact (proj2 (proj2 (heartbeat_passes_one_timestamp demo_clock 0 1000
                         demo_browser eq_refl))).
Defined.

(** C6. The cleanup clears the interval its effect registered. Starting
    from a page without heartbeat intervals and a hook that is not yet
    mounted, after any sequence of effect commits, unmounts and timer
    firings the heartbeat intervals registered are exactly the one whose
    cleanup React still holds (none when it holds none); so once the
    component is unmounted no heartbeat interval is left, and a timer
    that fires then runs nothing. *)
Theorem no_heartbeat_after_unmount :
  forall (Date_now : nat -> Z) (TICK_INTERVAL : Z) (evs : list GameTick.Event)
         (w : GameTick.Browser),
    GameTick.heartbeat_timers w = ∅ ->
    let registered := GameTick.effect TICK_INTERVAL w in
    let during := GameTick.run Date_now TICK_INTERVAL evs None w in
    let after :=
      GameTick.run Date_now TICK_INTERVAL (evs ++ [GameTick.unmount]) None w in
    GameTick.timers (GameTick.cleanup registered.1 registered.2).2 !! registered.1
    = None
    /\ GameTick.heartbeat_timers during.2
       = GameTick.expected_timers TICK_INTERVAL during.1
    /\ after.1 = None
    /\ GameTick.heartbeat_timers after.2 = ∅
    /\ forall intervalId,
         GameTick.fire Date_now intervalId after.2 = (tt, after.2).
Proof.
  intros Date_now TICK evs w Hnone registered during after.
  assert (Hduring : GameTick.heartbeat_timers during.2
                    = GameTick.expected_timers TICK during.1).
  { apply run_invariant. exact Hnone. }
  assert (Hafter : after = (None, (GameTick.run_pending during.1 during.2).2)).
  { subst after during. rewrite run_app. apply run_unmount. }
  assert (Hgone : GameTick.heartbeat_timers after.2 = ∅).
  { rewrite Hafter. simpl. eapply run_pending_clears. exact Hduring. }
  split; [|split; [|split; [|split]]].
  - subst registered. unfold GameTick.cleanup, GameTick.clearInterval. simpl.
    apply lookup_delete_eq.
  - exact Hduring.
  - rewrite Hafter. reflexivity.
  - exact Hgone.
  - intros intervalId. unfold GameTick.fire.
    destruct (GameTick.timers after.2 !! intervalId) as [[[|] ms]|] eqn:Hlook;
      try reflexivity.
    exfalso.
    eapply (map_filter_empty_not_lookup _ _ intervalId); [exact Hgone| |exact Hlook].
    reflexivity.
Qed.

Lemma no_heartbeat_after_unmount_witness :
  let after :=
    GameTick.run demo_clock 1000
      ([GameTick.commit; GameTick.timer_fires 3; GameTick.commit] ++ [GameTick.unmount])
      None idle_browser in
  after.1 = None /\ GameTick.heartbeat_timers after.2 = ∅.
Proof.
  intros after.
  pose proof (no_heartbeat_after_unmount demo_clock 1000
                [GameTick.commit; GameTick.timer_fires 3; GameTick.commit]
                idle_browser eq_refl)
    as (_ & _ & Hpending & Hgone & _).
  split; [exact Hpending | exact Hgone].
Defined.

(** ** The directory store *)

Section DirectoryFacts.

Variables GalaxySystem Player PlayerProfile : Type.
Variable SYSTEM_SNAPSHOT : list GalaxySystem.
Variable PLAYER_DIRECTORY : list Player.
Variable CURRENT_PLAYER_ID : string.
Variable ALLIANCE_DIRECTORY : list Directory.Alliance.

Local Notation State := (Directory.DirectoryState GalaxySystem Player PlayerProfile).
Local Notation Response := (Directory.DirectoryResponse GalaxySystem Player).
Local Notation refresh :=
  (Directory.refresh GalaxySystem Player PlayerProfile SYSTEM_SNAPSHOT
     PLAYER_DIRECTORY CURRENT_PLAYER_ID ALLIANCE_DIRECTORY).
Local Notation createFallbackSnapshot :=
  (Directory.createFallbackSnapshot GalaxySystem Player SYSTEM_SNAPSHOT
     PLAYER_DIRECTORY CURRENT_PLAYER_ID ALLIANCE_DIRECTORY).

(** The fallback colours are those of [ALLIANCE_DIRECTORY]. *)
Lemma fallback_allianceColors :
  Directory.snap_allianceColors createFallbackSnapshot
  = Directory.buildAllianceColorMap ALLIANCE_DIRECTORY.
Proof.
  unfold Directory.createFallbackSnapshot. simpl. f_equal.
  induction ALLIANCE_DIRECTORY as [|[i c] rest IH]; simpl; [reflexivity|].
  rewrite IH. reflexivity.
Qed.

(** C8. When the fetch of the directory snapshot rejects, whatever the
    state was and whatever other actions did while the fetch was awaited,
    [refresh] fulfils (it does not throw) and leaves the store with the
    fallback systems, players, currentPlayerId and allianceColors, with
    isLoading false, isReady true, and with the error message recorded:
    the message of the [Error] caught, or the fixed text for any other
    value. The fields [refresh] does not set are as the other actions left
    them. *)
Theorem refresh_falls_back :
  forall (meanwhile : State -> State) (e : Directory.Thrown) (s : State),
    let before := meanwhile (Directory.set_loading _ _ _ s) in
    let result := refresh meanwhile (Directory.rejected e) s in
    result.1 = Directory.fulfilled tt
    /\ Directory.systems result.2 = SYSTEM_SNAPSHOT
    /\ Directory.players result.2 = PLAYER_DIRECTORY
    /\ Directory.currentPlayerId result.2 = CURRENT_PLAYER_ID
    /\ Directory.allianceColors result.2
       = Directory.buildAllianceColorMap ALLIANCE_DIRECTORY
    /\ Directory.isLoading result.2 = false
    /\ Directory.isReady result.2 = true
    /\ Directory.error result.2 = Some (Directory.error_text e)
    /\ Directory.error_text e
       = match e with
         | Directory.thrown_Error message => message
         | Directory.thrown_other =>
             "Unbekannter Fehler beim Laden des Verzeichnisses."
         end
    /\ Directory.favorites result.2 = Directory.favorites before
    /\ Directory.openProfileId result.2 = Directory.openProfileId before
    /\ Directory.profiles result.2 = Directory.profiles before.
Proof.
  intros meanwhile e s before result. subst before result.
  unfold Directory.refresh, Directory.refresh_try, Directory.refresh_catch.
  cbn -[Directory.createFallbackSnapshot Directory.buildAllianceColorMap].
  rewrite fallback_allianceColors.
  destruct e; cbn; auto 20.
Qed.

End DirectoryFacts.

(** ** The shipyard store's advance *)

Section AdvanceFacts.

Import Shipyard.

Variable lookup : string -> option ShipBlueprint.
Variable admits : Z -> ShipBuildOrder -> bool.

Local Notation eligible := (eligible lookup).
Local Notation promotable := (promotable lookup admits).
Local Notation advance_order := (advance_order lookup admits).
Local Notation credit_order := (credit_order lookup).
Local Notation advance := (advance lookup admits).

Lemma eligible_building now order :
  eligible now order = true -> order_status order = building.
Proof.
  unfold Shipyard.eligible. intros H.
  apply andb_prop in H as [H _]. apply andb_prop in H as [H _].
  apply bool_decide_eq_true in H. exact H.
Qed.

Lemma promotable_queued now order :
  promotable now order = true -> order_status order = queued.
Proof.
  unfold Shipyard.promotable. intros H.
  apply andb_prop in H as [H _]. apply andb_prop in H as [H _].
  apply bool_decide_eq_true in H. exact H.
Qed.

Lemma eligible_not_building now order :
  order_status order <> building -> eligible now order = false.
Proof.
  intros Hst. destruct (eligible now order) eqn:Hel; [|reflexivity].
  apply eligible_building in Hel. contradiction.
Qed.

Lemma promotable_not_queued now order :
  order_status order <> queued -> promotable now order = false.
Proof.
  intros Hst. destruct (promotable now order) eqn:Hpr; [|reflexivity].
  apply promotable_queued in Hpr. contradiction.
Qed.

(** The result of a call is never promotable again at the same [now]. *)
Lemma not_promotable_after now order : promotable now (advance_order now order) = false.
Proof.
  unfold Shipyard.advance_order.
  destruct (order_status order) eqn:Hst.
  - destruct (promotable now order) eqn:Hpr; [|exact Hpr].
    apply promotable_not_queued. discriminate.
  - destruct (eligible now order);
      apply promotable_not_queued; simpl; rewrite ?Hst; discriminate.
  - apply promotable_not_queued. rewrite Hst. discriminate.
  - apply promotable_not_queued. rewrite Hst. discriminate.
Qed.

(** Unless the call promoted the order, its result is not due. *)
Lemma not_eligible_after now order :
  promotable now order = false -> eligible now (advance_order now order) = false.
Proof.
  intros Hpr. unfold Shipyard.advance_order.
  destruct (order_status order) eqn:Hst.
  - rewrite Hpr. apply eligible_not_building. rewrite Hst. discriminate.
  - destruct (eligible now order) eqn:Hel; [|exact Hel].
    apply eligible_not_building. discriminate.
  - apply eligible_not_building. rewrite Hst. discriminate.
  - apply eligible_not_building. rewrite Hst. discriminate.
Qed.

Lemma advance_order_fixed now order :
  eligible now order = false -> promotable now order = false ->
  advance_order now order = order.
Proof.
  intros Hel Hpr. unfold Shipyard.advance_order.
  rewrite Hel, Hpr. destruct (order_status order); reflexivity.
Qed.

Lemma advance_order_terminal now order :
  order_status order = completed \/ order_status order = cancelled ->
  advance_order now order = order /\ eligible now order = false.
Proof.
  intros Hst. split.
  - unfold Shipyard.advance_order. destruct Hst as [-> | ->]; reflexivity.
  - apply eligible_not_building. destruct Hst as [-> | ->]; discriminate.
Qed.

Lemma credits_nothing now (inv : gmap string Z) queue :
  Forall (fun order => eligible now order = false) queue ->
  foldl (credit_order now) inv queue = inv.
Proof.
  intros Hnone. revert inv.
  induction Hnone as [|order rest Hel _ IH]; intros inv; simpl.
  - reflexivity.
  - unfold Shipyard.credit_order at 2. rewrite Hel. apply IH.
Qed.

(** A second call changes nothing when the first promoted nothing. *)
Lemma advance_twice now st :
  Forall (fun order => promotable now order = false) (queue st) ->
  advance now (advance now st) = advance now st.
Proof.
  intros Hnone. rewrite List.Forall_forall in Hnone.
  unfold Shipyard.advance. simpl. f_equal.
  - rewrite map_map. apply map_ext_in. intros order Hin.
    apply advance_order_fixed;
      [apply not_eligible_after, Hnone, Hin | apply not_promotable_after].
  - apply credits_nothing. apply List.Forall_forall. intros order Hin.
    apply List.in_map_iff in Hin as (o & <- & Ho).
    apply not_eligible_after, Hnone, Ho.
Qed.

Lemma advance_leaves_nothing_promotable now st :
  Forall (fun order => promotable now order = false) (queue (advance now st)).
Proof.
  apply List.Forall_forall. intros order Hin. simpl in Hin.
  apply List.in_map_iff in Hin as (o & <- & _). apply not_promotable_after.
Qed.

Lemma advance_thrice now st :
  advance now (advance now (advance now st)) = advance now (advance now st).
Proof. apply advance_twice, advance_leaves_nothing_promotable. Qed.

(** Completed and cancelled orders stay as and where they are, and credit
    nothing. *)
Lemma advance_terminal_untouched now st i order :
  queue st !! i = Some order ->
  order_status order = completed \/ order_status order = cancelled ->
  queue (advance now st) !! i = Some order
  /\ credit_order now (inventory st) order = inventory st.
Proof.
  intros Hi Hst. destruct (advance_order_terminal now order Hst) as [Hfix Hel].
  split.
  - simpl. change (map (advance_order now) (queue st))
      with (advance_order now <$> queue st).
    rewrite list_lookup_fmap, Hi. simpl. rewrite Hfix. reflexivity.
  - unfold Shipyard.credit_order. rewrite Hel. reflexivity.
Qed.

End AdvanceFacts.




(** * Further properties of the view *)

(** ** Durations *)

Section DurationFacts.

Import WerftView.

Lemma colon_not_fertig (s1 s2 : string) : s1 +:+ ":" +:+ s2 <> "fertig".
Proof.
  do 7 (destruct s1 as [|? s1]; [simpl; discriminate|];
        simpl; intros [= ? H]; revert H); destruct s1; discriminate.
Qed.

Lemma formatDuration_fertig ms : formatDuration ms = "fertig" <-> ms <= 0.
Proof.
  unfold formatDuration. destruct (ms <=? 0) eqn:Hms.
  - split; [lia | reflexivity].
  - split; [|lia]. intros H. exfalso.
    destruct (60 <=? ms / 60000).
    + exact (colon_not_fertig _ _ H).
    + exact (colon_not_fertig _ _ H).
Qed.

(** Whole seconds decide minutes and seconds. *)
Lemma minutes_of_seconds ms : ms / 60000 = ms / 1000 / 60.
Proof. rewrite Z.div_div by lia. reflexivity. Qed.

Lemma seconds_of_seconds ms : ms mod 60000 / 1000 = (ms / 1000) mod 60.
Proof.
  change 60000 with (1000 * 60).
  rewrite Z.rem_mul_r by lia.
  rewrite Z.mul_comm, Z.div_add by lia.
  rewrite (Z.div_small (ms mod 1000)) by (apply Z.mod_pos_bound; lia).
  reflexivity.
Qed.

Lemma string_length_app (s1 s2 : string) :
  String.length (s1 +:+ s2) = (String.length s1 + String.length s2)%nat.
Proof. induction s1 as [|c s1 IH]; simpl; [reflexivity | rewrite IH; reflexivity]. Qed.

(** Below 100 the padded number has exactly two characters. *)
Lemma padStart_two_digits n :
  0 <= n < 100 -> String.length (padStart 2 "0"%char (pretty n)) = 2%nat.
Proof.
  intros Hn.
  assert (Hall : forallb
            (fun k => Nat.eqb (String.length (padStart 2 "0"%char (pretty (Z.of_nat k)))) 2)
            (seq 0 100) = true) by (vm_compute; reflexivity).
  rewrite forallb_forall in Hall.
  specialize (Hall (Z.to_nat n)). rewrite Z2Nat.id in Hall by lia.
  apply Nat.eqb_eq, Hall, in_seq. lia.
Qed.

Lemma padStart_at_least n c s : (n <= String.length (padStart n c s))%nat.
Proof.
  unfold padStart. rewrite string_length_app.
  assert (Hrep : forall k, String.length (String.string_of_list_ascii (replicate k c)) = k).
  { induction k as [|k IH]; simpl; [reflexivity | rewrite IH; reflexivity]. }
  rewrite Hrep. lia.
Qed.

Lemma pretty_N_go_grows x s :
  (String.length s <= String.length (pretty_N_go x s))%nat.
Proof.
  revert s. induction (N.lt_wf_0 x) as [x _ IH]; intros s.
  destruct (decide (x = 0)%N) as [->|Hx].
  - rewrite pretty_N_go_0. lia.
  - rewrite pretty_N_go_step by lia.
    etransitivity; [|apply IH; apply N.div_lt; lia]. simpl. lia.
Qed.

Lemma pretty_positive_nonempty (n : Z) :
  0 < n -> (1 <= String.length (pretty n))%nat.
Proof.
  destruct n as [|p|p]; try lia. intros _.
  unfold pretty, pretty_Z, pretty, pretty_positive, pretty, pretty_N.
  rewrite decide_False by discriminate.
  rewrite pretty_N_go_step by lia.
  etransitivity; [|apply pretty_N_go_grows]. simpl. lia.
Qed.

End DurationFacts.

(** X1. An order row shows "fertig" exactly when the order is completed or
    its end time has been reached at the clock reading of the memo; the
    remaining time is never negative, and [formatDuration] gives "fertig"
    for no positive duration. *)
Theorem order_row_fertig :
  forall (SHIP_BLUEPRINTS : list ShipBlueprint) (now : Z) (order : ShipBuildOrder),
    let e := WerftView.queue_entry SHIP_BLUEPRINTS now order in
    0 <= WerftView.remaining e
    /\ (WerftView.formatDuration (WerftView.remaining e) = "fertig"
        <-> order_status order = completed \/ order_endTime order <= now)
    /\ forall ms, WerftView.formatDuration ms = "fertig" <-> ms <= 0.
Proof.
  intros cat now order e. subst e. simpl.
  split; [|split].
  - case_bool_decide; lia.
  - rewrite formatDuration_fertig. case_bool_decide as Hst.
    + split; [auto | lia].
    + split; [right; lia | intros [?|?]; [contradiction | lia]].
  - apply formatDuration_fertig.
Qed.

(** X2. The text of a positive duration depends on its whole seconds
    only: two durations within the same second are shown alike. *)
Theorem formatDuration_whole_seconds :
  forall (ms1 ms2 : Z),
    0 < ms1 -> 0 < ms2 -> ms1 / 1000 = ms2 / 1000 ->
    WerftView.formatDuration ms1 = WerftView.formatDuration ms2.
Proof.
  intros ms1 ms2 H1 H2 Hsec. unfold WerftView.formatDuration.
  rewrite (proj2 (Z.leb_gt ms1 0)), (proj2 (Z.leb_gt ms2 0)) by lia.
  rewrite !minutes_of_seconds, !seconds_of_seconds, Hsec. reflexivity.
Qed.

Lemma formatDuration_whole_seconds_witness :
  WerftView.formatDuration 61999 = WerftView.formatDuration 61000.
Proof.
  apply formatDuration_whole_seconds; [lia | lia | reflexivity].
Defined.

(** X3. Below one hour a positive duration is shown in exactly five
    characters ("mm:ss"); from one hour on the text has at least seven
    ("h:mm:ss", with the hours not padded). *)
Theorem formatDuration_width :
  forall (ms : Z),
    0 < ms ->
    if ms <? 3600000
    then String.length (WerftView.formatDuration ms) = 5%nat
    else (7 <= String.length (WerftView.formatDuration ms))%nat.
Proof.
  intros ms Hpos. unfold WerftView.formatDuration.
  rewrite (proj2 (Z.leb_gt ms 0)) by lia.
  assert (Hsec : 0 <= ms mod 60000 / 1000 < 100).
  { rewrite seconds_of_seconds.
    pose proof (Z.mod_pos_bound (ms / 1000) 60). lia. }
  destruct (ms <? 3600000) eqn:Hlt.
  - apply Z.ltb_lt in Hlt.
    assert (Hmin : 0 <= ms / 60000 < 60).
    { split; [apply Z.div_pos; lia | apply Z.div_lt_upper_bound; lia]. }
    rewrite (proj2 (Z.leb_gt 60 (ms / 60000))) by lia.
    rewrite !string_length_app, !padStart_two_digits by lia. reflexivity.
  - apply Z.ltb_ge in Hlt.
    assert (Hmin : 60 <= ms / 60000) by (apply Z.div_le_lower_bound; lia).
    rewrite (proj2 (Z.leb_le 60 (ms / 60000))) by lia.
    rewrite !string_length_app.
    assert (Hh : 0 < ms / 60000 / 60) by (apply Z.div_str_pos; lia).
    pose proof (pretty_positive_nonempty _ Hh).
    pose proof (padStart_at_least 2 "0"%char (pretty (ms / 60000 mod 60))).
    pose proof (padStart_at_least 2 "0"%char (pretty (ms mod 60000 / 1000))).
    simpl. lia.
Qed.

Lemma formatDuration_width_witness :
  String.length (WerftView.formatDuration 56000) = 5%nat.
Proof. exact (formatDuration_width 56000 eq_refl). Defined.

(** ** The hangar list and the order rows against the hangar usage *)

Section RowFacts.

Import WerftView.

Variable SHIP_BLUEPRINTS : list ShipBlueprint.

Local Notation inventory_entry := (inventory_entry SHIP_BLUEPRINTS).
Local Notation inventoryEntries_of := (inventoryEntries_of SHIP_BLUEPRINTS).
Local Notation used_of_entries := (used_of_entries SHIP_BLUEPRINTS).
Local Notation compute_reserved := (compute_reserved SHIP_BLUEPRINTS).
Local Notation order_slots := (order_slots SHIP_BLUEPRINTS).

Lemma inv_slots_entry entry :
  inv_slots (inventory_entry entry) = entry_slots SHIP_BLUEPRINTS entry.
Proof.
  unfold WerftView.inventory_entry, entry_slots, used_step. simpl.
  destruct (find_blueprint SHIP_BLUEPRINTS entry.1); lia.
Qed.

Lemma total_inventory_slots_of entries :
  Forall (fun entry => 0 <= entry.2) entries ->
  total_inventory_slots (inventoryEntries_of entries) = used_of_entries entries.
Proof.
  induction 1 as [|entry rest Hnonneg _ IH].
  - reflexivity.
  - rewrite used_of_entries_cons. unfold WerftView.inventoryEntries_of in *.
    cbn [List.filter]. destruct (0 <? entry.2) eqn:Hpos.
    + cbn [map total_inventory_slots foldr].
      rewrite inv_slots_entry. unfold total_inventory_slots in IH. rewrite IH.
      reflexivity.
    + rewrite IH.
      assert (Hzero : entry.2 = 0) by lia.
      unfold entry_slots, used_step.
      destruct (find_blueprint SHIP_BLUEPRINTS entry.1); rewrite ?Hzero; lia.
Qed.

Lemma compute_reserved_perm q1 q2 :
  Permutation q1 q2 -> compute_reserved q1 = compute_reserved q2.
Proof.
  induction 1 as [|o l1 l2 _ IH|o1 o2 l|l1 l2 l3 _ IH1 _ IH2].
  - reflexivity.
  - rewrite !compute_reserved_cons, IH. reflexivity.
  - rewrite !compute_reserved_cons. lia.
  - congruence.
Qed.

Lemma reserving_slots_entry now order :
  reserving_slots (queue_entry SHIP_BLUEPRINTS now order) = order_slots order.
Proof.
  rewrite order_slots_cases. unfold reserving_slots, displayed_slots. simpl.
  destruct (order_status order); simpl;
    destruct (find_blueprint SHIP_BLUEPRINTS (order_blueprintId order)); lia.
Qed.

Lemma total_reserving_slots_map now queue :
  total_reserving_slots (map (queue_entry SHIP_BLUEPRINTS now) queue)
  = compute_reserved queue.
Proof.
  induction queue as [|o rest IH]; [reflexivity|].
  rewrite compute_reserved_cons. cbn [map total_reserving_slots foldr].
  rewrite reserving_slots_entry. unfold total_reserving_slots in IH.
  rewrite IH. reflexivity.
Qed.

End RowFacts.

Lemma NoDup_fst_filter {A B : Type} (f : A * B -> bool) (l : list (A * B)) :
  NoDup (map fst l) -> NoDup (map fst (List.filter f l)).
Proof.
  induction l as [|x rest IH]; simpl; [auto|].
  intros Hnd. apply NoDup_cons in Hnd as [Hnotin Hrest].
  destruct (f x); simpl; [|auto].
  apply NoDup_cons. split; [|auto].
  intros Hin. apply Hnotin.
  apply list_elem_of_In in Hin. apply list_elem_of_In.
  apply List.in_map_iff in Hin as (y & Hy & Hyin).
  apply List.in_map_iff. exists y. split; [exact Hy|].
  apply List.filter_In in Hyin. tauto.
Qed.

(** X4. When no amount in the inventory is negative, the slots of the
    rows of the hangar list add up to the "used" figure of the hangar
    usage, although the list leaves out the entries with amount 0. *)
Theorem hangar_rows_add_up_to_used :
  forall (SHIP_BLUEPRINTS : list ShipBlueprint) (inventory : gmap string Z)
         (queue : list ShipBuildOrder) (hangarCapacity : Z),
    (forall blueprintId amount, inventory !! blueprintId = Some amount -> 0 <= amount) ->
    total_inventory_slots (WerftView.inventoryEntries SHIP_BLUEPRINTS inventory)
    = WerftView.used (WerftView.hangarUsage SHIP_BLUEPRINTS inventory queue hangarCapacity).
Proof.
  intros cat inventory queue cap Hnonneg. simpl.
  unfold WerftView.inventoryEntries, WerftView.compute_used.
  apply total_inventory_slots_of. apply List.Forall_forall.
  intros [k a] Hin. simpl. apply (Hnonneg k).
  apply elem_of_map_to_list, list_elem_of_In, Hin.
Qed.

Lemma hangar_rows_witness :
  total_inventory_slots
    (WerftView.inventoryEntries demo_catalog {["korvette" := 3; "fregatte" := 0]})
  = 6.
Proof.
  rewrite (hangar_rows_add_up_to_used demo_catalog
             {["korvette" := 3; "fregatte" := 0]} [] 10); [reflexivity|].
  apply (bool_decide_unpack
           (map_Forall (fun (_ : string) (a : Z) => 0 <= a)
              ({["korvette" := 3; "fregatte" := 0]} : gmap string Z))).
  vm_compute. reflexivity.
Defined.

(** X5. The hangar list has one row for each inventory key with a
    positive amount and no other row; its row ids (the React keys) are
    pairwise different; and it is empty, so that the "no ships" text is
    shown, exactly when no amount is positive. *)
Theorem hangar_rows_are_the_positive_entries :
  forall (SHIP_BLUEPRINTS : list ShipBlueprint) (inventory : gmap string Z),
    let rows := WerftView.inventoryEntries SHIP_BLUEPRINTS inventory in
    NoDup (map WerftView.inv_id rows)
    /\ (forall row,
          In row rows
          <-> exists blueprintId amount,
                inventory !! blueprintId = Some amount /\ 0 < amount
                /\ row = WerftView.inventory_entry SHIP_BLUEPRINTS (blueprintId, amount))
    /\ (rows = []
        <-> forall blueprintId amount,
              inventory !! blueprintId = Some amount -> amount <= 0).
Proof.
  intros cat inventory rows.
  assert (Hmem : forall row,
            In row rows
            <-> exists k a, inventory !! k = Some a /\ 0 < a
                            /\ row = WerftView.inventory_entry cat (k, a)).
  { intros row. subst rows.
    unfold WerftView.inventoryEntries, WerftView.inventoryEntries_of.
    rewrite List.in_map_iff. split.
    - intros ([k a] & <- & Hin). apply List.filter_In in Hin as [Hin Hpos].
      exists k, a. split; [|split; [simpl in Hpos; lia | reflexivity]].
      apply elem_of_map_to_list, list_elem_of_In, Hin.
    - intros (k & a & Hk & Hpos & ->). exists (k, a). split; [reflexivity|].
      apply List.filter_In. split; [|simpl; lia].
      apply list_elem_of_In, elem_of_map_to_list, Hk. }
  split; [|split].
  - subst rows. unfold WerftView.inventoryEntries, WerftView.inventoryEntries_of.
    rewrite map_map. simpl.
    apply (NoDup_fst_filter (fun entry => 0 <? entry.2)).
    apply NoDup_fst_map_to_list.
  - exact Hmem.
  - split.
    + intros Hnil k a Hk. destruct (Z.le_gt_cases a 0) as [|Hpos]; [assumption|].
      exfalso. assert (Hin : In (WerftView.inventory_entry cat (k, a)) rows).
      { apply Hmem. exists k, a. auto with lia. }
      rewrite Hnil in Hin. exact Hin.
    + intros Hnone. destruct rows as [|row rest] eqn:Hrows; [reflexivity|].
      exfalso. destruct (proj1 (Hmem row)) as (k & a & Hk & Hpos & _).
      { left. reflexivity. }
      specialize (Hnone k a Hk). lia.
Qed.

(** X6. The slots shown in the order rows, counted for every row whose
    order is not completed, add up to the "reserved" figure of the hangar
    usage, whatever the clock reading of the rows. *)
Theorem order_rows_add_up_to_reserved :
  forall (SHIP_BLUEPRINTS : list ShipBlueprint) (now : Z)
         (inventory : gmap string Z) (queue : list ShipBuildOrder)
         (hangarCapacity : Z),
    total_reserving_slots (WerftView.queueEntries SHIP_BLUEPRINTS now queue)
    = WerftView.reserved
        (WerftView.hangarUsage SHIP_BLUEPRINTS inventory queue hangarCapacity).
Proof.
  intros cat now inventory queue cap. simpl. unfold WerftView.queueEntries.
  rewrite total_reserving_slots_map.
  apply compute_reserved_perm, sort_by_startTime_perm.
Qed.

(** * Further properties of the heartbeat *)

Section TraceFacts.

Import GameTick.

Variable Date_now : nat -> Z.
Variable TICK_INTERVAL : Z.

Local Notation tick := (tick Date_now).
Local Notation fire := (fire Date_now).
Local Notation step := (step Date_now TICK_INTERVAL).
Local Notation run := (run Date_now TICK_INTERVAL).
Local Notation tick_calls := (tick_calls Date_now).

Lemma run_pending_frame pending w :
  clock_reads (run_pending pending w).2 = clock_reads w
  /\ calls (run_pending pending w).2 = calls w
  /\ next_timer (run_pending pending w).2 = next_timer w.
Proof. destruct pending; simpl; auto. Qed.

(** One event either leaves clock and calls alone or, when it is a timer
    firing, runs the callback once. *)
Lemma step_trace pending ev w :
  let w1 := (step pending ev w).2 in
  (clock_reads w1 = clock_reads w /\ calls w1 = calls w)
  \/ ((exists intervalId, ev = timer_fires intervalId)
      /\ clock_reads w1 = S (clock_reads w)
      /\ calls w1 = calls w ++ tick_calls (clock_reads w)).
Proof.
  destruct ev as [| |intervalId]; simpl.
  - left. unfold GameTick.step; unfold_M.
    pose proof (run_pending_frame pending w) as (Hr & Hc & _).
    destruct (run_pending pending w) as [[] w1]. simpl in *. auto.
  - left. unfold GameTick.step; unfold_M.
    pose proof (run_pending_frame pending w) as (Hr & Hc & _).
    destruct (run_pending pending w) as [[] w1]. simpl in *. auto.
  - unfold GameTick.step; unfold_M. unfold GameTick.fire.
    destruct (timers w !! intervalId) as [[[|] ms]|];
      [right; rewrite tick_result; simpl; eauto | left; simpl; auto ..].
Qed.

Lemma run_trace evs pending w :
  exists n,
    clock_reads (run evs pending w).2 = (clock_reads w + n)%nat
    /\ calls (run evs pending w).2
       = calls w ++ flat_map tick_calls (seq (clock_reads w) n)
    /\ (n <= firings evs)%nat.
Proof.
  revert pending w. induction evs as [|ev rest IH]; intros pending w.
  - exists 0%nat. simpl. rewrite app_nil_r. auto with lia.
  - cbn [GameTick.run]. unfold_M.
    pose proof (step_trace pending ev w) as Hstep.
    destruct (step pending ev w) as [pending' w1]. simpl in Hstep.
    destruct (IH pending' w1) as (n & Hreads & Hcalls & Hn).
    destruct Hstep as [[Hr Hc]|[[intervalId ->] [Hr Hc]]].
    + exists n. rewrite Hreads, Hcalls, Hr, Hc.
      split; [reflexivity|]. split; [reflexivity|].
      unfold firings in *. destruct ev; simpl; lia.
    + exists (S n). rewrite Hreads, Hcalls, Hr, Hc.
      split; [lia|]. split.
      * cbn [seq flat_map]. rewrite <- app_assoc. reflexivity.
      * unfold firings in *. simpl. lia.
Qed.

(** What the hook registers lies at or above [n0], and the intervals
    below [n0] are left alone. *)
Lemma step_frame n0 pending ev w :
  (forall i, pending = Some i -> (n0 <= i)%nat) ->
  (n0 <= next_timer w)%nat ->
  let r := step pending ev w in
  (forall i, r.1 = Some i -> (n0 <= i)%nat)
  /\ (n0 <= next_timer r.2)%nat
  /\ (forall id, (id < n0)%nat -> timers r.2 !! id = timers w !! id)
  /\ (ids_below_next w -> ids_below_next r.2).
Proof.
  intros Hpending Hnext.
  assert (Hclear : forall id, (id < n0)%nat ->
            timers (run_pending pending w).2 !! id = timers w !! id).
  { intros id Hid. destruct pending as [i|]; simpl; [|reflexivity].
    apply lookup_delete_ne. specialize (Hpending i eq_refl). lia. }
  assert (Hbelow : ids_below_next w -> ids_below_next (run_pending pending w).2).
  { intros Hw id t. destruct pending as [i|]; simpl; [|apply Hw].
    intros Hlook. apply lookup_delete_Some in Hlook as [_ Hlook]. eapply Hw, Hlook. }
  pose proof (run_pending_frame pending w) as (_ & _ & Hn).
  destruct ev as [| |intervalId]; unfold GameTick.step; unfold_M.
  - destruct (run_pending pending w) as [[] w1]. simpl in *.
    split; [intros i [= <-]; lia|]. split; [lia|]. split.
    + intros id Hid. rewrite lookup_insert_ne by lia. apply Hclear, Hid.
    + intros Hw id t. simpl. intros Hlook.
      apply lookup_insert_Some in Hlook as [[<- _]|[_ Hlook]]; [lia|].
      apply (Hbelow Hw) in Hlook. lia.
  - destruct (run_pending pending w) as [[] w1]. simpl in *.
    split; [discriminate|]. split; [lia|]. split; [exact Hclear | exact Hbelow].
  - pose proof (fire_timers Date_now intervalId w) as Hsame.
    assert (Hsame_next : next_timer (fire intervalId w).2 = next_timer w).
    { unfold GameTick.fire.
      destruct (timers w !! intervalId) as [[[|] ms]|]; reflexivity. }
    destruct (fire intervalId w) as [[] w1]. simpl in *.
    split; [exact Hpending|]. split; [lia|]. split.
    + intros id _. rewrite Hsame. reflexivity.
    + intros Hw id t. rewrite Hsame, Hsame_next. apply Hw.
Qed.

Lemma run_frame n0 evs pending w :
  (forall i, pending = Some i -> (n0 <= i)%nat) ->
  (n0 <= next_timer w)%nat ->
  let r := run evs pending w in
  (forall id, (id < n0)%nat -> timers r.2 !! id = timers w !! id)
  /\ (ids_below_next w -> ids_below_next r.2).
Proof.
  revert pending w. induction evs as [|ev rest IH]; intros pending w Hp Hn.
  - simpl. auto.
  - cbn [GameTick.run]. unfold_M.
    pose proof (step_frame n0 pending ev w Hp Hn) as (Hp1 & Hn1 & Hkeep1 & Hb1).
    destruct (step pending ev w) as [pending' w1]. simpl in *.
    destruct (IH pending' w1 Hp1 Hn1) as (Hkeep & Hb).
    split.
    + intros id Hid. rewrite Hkeep by exact Hid. apply Hkeep1, Hid.
    + auto.
Qed.

End TraceFacts.

(** X7. Whatever the sequence of effect commits, unmounts and timer
    firings, the store calls made are a sequence of whole callback runs:
    the k-th clock read is followed by [gameTick], [advanceMissions] and
    [advanceShipyard] with the value of that read, nothing else is called,
    and there are at most as many runs as timer firings. *)
Theorem heartbeat_trace :
  forall (Date_now : nat -> Z) (TICK_INTERVAL : Z) (evs : list GameTick.Event)
         (pending : option nat) (w : GameTick.Browser),
    let w' := (GameTick.run Date_now TICK_INTERVAL evs pending w).2 in
    let runs := (GameTick.clock_reads w' - GameTick.clock_reads w)%nat in
    (GameTick.clock_reads w <= GameTick.clock_reads w')%nat
    /\ GameTick.calls w'
       = GameTick.calls w
         ++ flat_map (GameTick.tick_calls Date_now) (seq (GameTick.clock_reads w) runs)
    /\ (runs <= GameTick.firings evs)%nat.
Proof.
  intros Date_now TICK evs pending w w' runs. subst w' runs.
  destruct (run_trace Date_now TICK evs pending w) as (n & Hr & Hc & Hn).
  rewrite Hr, Hc.
  replace (GameTick.clock_reads w + n - GameTick.clock_reads w)%nat with n by lia.
  auto with lia.
Qed.

(** X8. The hook never touches an interval it did not register: when
    interval ids are handed out in increasing order, every interval that
    was registered before the component mounted is still registered,
    unchanged, after any sequence of effect commits, unmounts and timer
    firings, and ids are still handed out in increasing order. *)
Theorem hook_leaves_other_intervals :
  forall (Date_now : nat -> Z) (TICK_INTERVAL : Z) (evs : list GameTick.Event)
         (w : GameTick.Browser),
    GameTick.ids_below_next w ->
    let w' := (GameTick.run Date_now TICK_INTERVAL evs None w).2 in
    GameTick.ids_below_next w'
    /\ forall intervalId t,
         GameTick.timers w !! intervalId = Some t ->
         GameTick.timers w' !! intervalId = Some t.
Proof.
  intros Date_now TICK evs w Hw w'. subst w'.
  destruct (run_frame Date_now TICK (GameTick.next_timer w) evs None w)
    as (Hkeep & Hbelow); [discriminate | lia |].
  split; [auto|].
  intros id t Hid. rewrite Hkeep; [exact Hid|]. eapply Hw, Hid.
Qed.

Lemma idle_browser_ids_below_next : GameTick.ids_below_next idle_browser.
Proof.
  intros id t Hid. simpl in *.
  destruct (decide (id = 2%nat)) as [->|Hne]; [lia|].
  rewrite lookup_singleton_ne in Hid by congruence. discriminate.
Qed.

Lemma hook_leaves_other_intervals_witness :
  GameTick.timers
    (GameTick.run demo_clock 1000
       [GameTick.commit; GameTick.commit; GameTick.unmount] None idle_browser).2
    !! 2%nat
  = Some {| GameTick.callback := GameTick.foreign; GameTick.delay := 250 |}.
Proof.
  apply (hook_leaves_other_intervals demo_clock 1000
           [GameTick.commit; GameTick.commit; GameTick.unmount] idle_browser
           idle_browser_ids_below_next).
  reflexivity.
Defined.

(** * Further properties of the directory store *)

(** X9. In the colour map built from a list of alliances an id is mapped
    to the colour of the last alliance of the list with that id, and an id
    that no alliance of the list has is not in the map. *)
Theorem buildAllianceColorMap_last_wins :
  forall (alliances : list Directory.Alliance) (allianceId : string),
    Directory.buildAllianceColorMap alliances !! allianceId
    = Directory.alliance_color
      <$> List.find (fun entry => bool_decide (Directory.alliance_id entry = allianceId))
            (rev alliances).
Proof.
  intros alliances k. unfold Directory.buildAllianceColorMap.
  induction alliances as [|a rest IH] using rev_ind.
  - simpl. apply lookup_empty.
  - rewrite foldl_snoc, rev_unit. simpl. case_bool_decide as Hid.
    + rewrite Hid, lookup_insert_eq. reflexivity.
    + rewrite lookup_insert_ne by exact Hid. exact IH.
Qed.

Section DirectoryActionFacts.

Import DirectoryActions.

Variable Position : Type.
Variable formatSystemCoordinate : GalaxySystem Position -> string.
Variable SYSTEM_SNAPSHOT : list (GalaxySystem Position).
Variable PLAYER_DIRECTORY : list Player.
Variable CURRENT_PLAYER_ID : string.
Variable ALLIANCE_DIRECTORY : list Directory.Alliance.

Local Notation System := (GalaxySystem Position).
Local Notation State := (Directory.DirectoryState System Player PlayerProfile).
Local Notation Response := (Directory.DirectoryResponse System Player).
Local Notation refresh :=
  (Directory.refresh System Player PlayerProfile SYSTEM_SNAPSHOT
     PLAYER_DIRECTORY CURRENT_PLAYER_ID ALLIANCE_DIRECTORY).
Local Notation refresh_settled :=
  (refresh_settled Position SYSTEM_SNAPSHOT PLAYER_DIRECTORY CURRENT_PLAYER_ID
     ALLIANCE_DIRECTORY).
Local Notation initialize :=
  (initialize Position SYSTEM_SNAPSHOT PLAYER_DIRECTORY CURRENT_PLAYER_ID
     ALLIANCE_DIRECTORY).
Local Notation set_loading := (Directory.set_loading System Player PlayerProfile).
Local Notation deriveProfile := (deriveProfile Position formatSystemCoordinate).
Local Notation settle_profile := (settle_profile Position formatSystemCoordinate).
Local Notation openPlayerProfile := (openPlayerProfile Position formatSystemCoordinate).
Local Notation setPlanetOwner := (setPlanetOwner Position formatSystemCoordinate).
Local Notation favoritePlanet := (favoritePlanet Position).
Local Notation summary_of := (summary_of Position formatSystemCoordinate).

Lemma refresh_as_steps (meanwhile : State -> State) (fetched : Directory.Settled Response)
    (s : State) :
  refresh meanwhile fetched s
  = (Directory.fulfilled tt, refresh_settled fetched (meanwhile (set_loading s))).
Proof.
  unfold Directory.refresh, DirectoryActions.refresh_settled.
  destruct (Directory.refresh_try _ _ _ fetched (meanwhile (set_loading s)));
    reflexivity.
Qed.

Lemma refresh_settled_ready (fetched : Directory.Settled Response) (s : State) :
  Directory.isReady (refresh_settled fetched s) = true
  /\ Directory.isLoading (refresh_settled fetched s) = false
  /\ Directory.favorites (refresh_settled fetched s) = Directory.favorites s
  /\ Directory.openProfileId (refresh_settled fetched s) = Directory.openProfileId s
  /\ Directory.profiles (refresh_settled fetched s) = Directory.profiles s.
Proof.
  unfold DirectoryActions.refresh_settled. destruct fetched as [response|e]; simpl; auto.
Qed.

(** X10. However the fetch settles and whatever happens while it is
    awaited, [refresh] fulfils and leaves the store ready and not loading,
    with favourites, open profile and cached profiles as they were before
    its last step. When the fetch resolves, the store holds the systems,
    players and current player of the response and the colour map built
    from its alliances, and (nothing else intervening) no error. *)
Theorem refresh_always_ready :
  forall (meanwhile : State -> State) (fetched : Directory.Settled Response)
         (response : Response) (s : State),
    let before := meanwhile (set_loading s) in
    let result := refresh meanwhile fetched s in
    let loaded := (refresh meanwhile (Directory.fulfilled response) s).2 in
    result.1 = Directory.fulfilled tt
    /\ Directory.isReady result.2 = true
    /\ Directory.isLoading result.2 = false
    /\ Directory.favorites result.2 = Directory.favorites before
    /\ Directory.openProfileId result.2 = Directory.openProfileId before
    /\ Directory.profiles result.2 = Directory.profiles before
    /\ Directory.systems loaded = Directory.resp_systems _ _ response
    /\ Directory.players loaded = Directory.resp_players _ _ response
    /\ Directory.currentPlayerId loaded = Directory.resp_currentPlayerId _ _ response
    /\ Directory.allianceColors loaded
       = Directory.buildAllianceColorMap (Directory.resp_alliances _ _ response)
    /\ Directory.error (refresh (fun x => x) (Directory.fulfilled response) s).2 = None.
Proof.
  intros meanwhile fetched response s before result loaded.
  subst before result loaded. rewrite !refresh_as_steps. simpl.
  destruct (refresh_settled_ready fetched (meanwhile (set_loading s)))
    as (Hready & Hloading & Hfav & Hopen & Hprof).
  repeat (split; [assumption || reflexivity|]). reflexivity.
Qed.

(** X11. [initialize] does nothing (no fetch, no change of state) when the
    store is ready or a load is under way; and after any [initialize] a
    further [initialize] does nothing, however its fetch would settle. *)
Theorem initialize_once :
  forall (meanwhile1 meanwhile2 : State -> State)
         (fetched1 fetched2 : Directory.Settled Response) (s : State),
    (Directory.isReady s || Directory.isLoading s = true ->
     initialize meanwhile1 fetched1 s = (Directory.fulfilled tt, s))
    /\ initialize meanwhile2 fetched2 (initialize meanwhile1 fetched1 s).2
       = (Directory.fulfilled tt, (initialize meanwhile1 fetched1 s).2).
Proof.
  intros m1 m2 f1 f2 s.
  assert (Hskip : forall m f (s0 : State),
            Directory.isReady s0 || Directory.isLoading s0 = true ->
            initialize m f s0 = (Directory.fulfilled tt, s0)).
  { intros m f s0 H. unfold DirectoryActions.initialize. rewrite H. reflexivity. }
  split; [apply Hskip|].
  apply Hskip. unfold DirectoryActions.initialize.
  destruct (Directory.isReady s || Directory.isLoading s) eqn:Hs.
  - exact Hs.
  - rewrite refresh_as_steps. simpl.
    destruct (refresh_settled_ready f1 (m1 (set_loading s))) as (-> & _).
    reflexivity.
Qed.

(** *** Favourites *)

Lemma favoritePlanet_favorites target (s : State) :
  Directory.favorites (favoritePlanet target s)
  = if bool_decide (target ∈ Directory.favorites s)
    then List.filter (fun id => bool_decide (id <> target)) (Directory.favorites s)
    else Directory.favorites s ++ [target].
Proof. reflexivity. Qed.

Lemma favoritePlanet_member target (s : State) id :
  id ∈ Directory.favorites (favoritePlanet target s)
  <-> (if decide (id = target) then target ∉ Directory.favorites s
       else id ∈ Directory.favorites s).
Proof.
  rewrite favoritePlanet_favorites.
  case_bool_decide as Hfav.
  - rewrite list_elem_of_In, List.filter_In, <- list_elem_of_In.
    rewrite bool_decide_eq_true.
    destruct (decide (id = target)) as [->|Hne]; tauto.
  - rewrite elem_of_app, list_elem_of_singleton.
    destruct (decide (id = target)) as [->|Hne]; tauto.
Qed.

Lemma favoritePlanet_flag target (s : State) id :
  bool_decide (id ∈ Directory.favorites (favoritePlanet target s))
  = if bool_decide (id = target)
    then negb (bool_decide (target ∈ Directory.favorites s))
    else bool_decide (id ∈ Directory.favorites s).
Proof.
  pose proof (favoritePlanet_member target s id) as Hmem.
  destruct (decide (id = target)) as [->|Hne].
  - rewrite (bool_decide_eq_true_2 (target = target)) by reflexivity.
    destruct (bool_decide (target ∈ Directory.favorites s)) eqn:Hb; simpl.
    + apply bool_decide_eq_false. apply bool_decide_eq_true in Hb. tauto.
    + apply bool_decide_eq_true. apply bool_decide_eq_false in Hb. tauto.
  - rewrite (bool_decide_eq_false_2 (id = target)) by exact Hne.
    apply bool_decide_ext. exact Hmem.
Qed.

Lemma favoritePlanet_NoDup target (s : State) :
  NoDup (Directory.favorites s) ->
  NoDup (Directory.favorites (favoritePlanet target s)).
Proof.
  intros Hnd. rewrite favoritePlanet_favorites. case_bool_decide as Hfav.
  - apply NoDup_ListNoDup, List.NoDup_filter, NoDup_ListNoDup, Hnd.
  - apply NoDup_app. split; [exact Hnd|]. split.
    + intros x Hx Hx'. apply list_elem_of_singleton in Hx'. subst. tauto.
    + apply NoDup_singleton.
Qed.

(** X12. [favoritePlanet] toggles one favourite: afterwards the planet is
    a favourite exactly when it was not one before, every other planet is
    a favourite exactly when it was one before, the list of favourites is
    still free of duplicates, and systems, players and the other fields
    are untouched; the same profiles are cached. *)
Theorem favoritePlanet_toggles :
  forall (target : string) (s : State),
    NoDup (Directory.favorites s) ->
    let s' := favoritePlanet target s in
    NoDup (Directory.favorites s')
    /\ (target ∈ Directory.favorites s' <-> target ∉ Directory.favorites s)
    /\ (forall other, other <> target ->
          (other ∈ Directory.favorites s' <-> other ∈ Directory.favorites s))
    /\ Directory.systems s' = Directory.systems s
    /\ Directory.players s' = Directory.players s
    /\ Directory.openProfileId s' = Directory.openProfileId s
    /\ Directory.isReady s' = Directory.isReady s
    /\ dom (Directory.profiles s') = dom (Directory.profiles s).
Proof.
  intros target s Hnd s'. subst s'.
  split; [apply favoritePlanet_NoDup, Hnd|].
  split; [|split].
  - rewrite favoritePlanet_member. rewrite decide_True by reflexivity. tauto.
  - intros other Hne. rewrite favoritePlanet_member.
    rewrite decide_False by exact Hne. tauto.
  - simpl. repeat (split; [reflexivity|]). apply dom_fmap_L.
Qed.

(** *** The favourite flags of the cached profiles *)

Lemma deriveProfile_flags now playerId (systems : list System) favorites players planet :
  In planet (planets (deriveProfile now playerId systems favorites players)) ->
  isFavorite planet = bool_decide (planetId planet ∈ favorites).
Proof.
  simpl. intros Hin. apply List.in_flat_map in Hin as (system & _ & Hin).
  apply List.in_map_iff in Hin as (p & <- & _). reflexivity.
Qed.

Lemma flags_consistent_same (s s' : State) :
  Directory.profiles s' = Directory.profiles s ->
  Directory.favorites s' = Directory.favorites s ->
  flags_consistent Position s -> flags_consistent Position s'.
Proof.
  intros Hp Hf Hs playerId profile planet. rewrite Hp, Hf. apply Hs.
Qed.

Lemma flags_consistent_insert (s s' : State) playerId profile :
  Directory.profiles s' = <[playerId := profile]> (Directory.profiles s) ->
  Directory.favorites s' = Directory.favorites s ->
  (forall planet, In planet (planets profile) ->
     isFavorite planet = bool_decide (planetId planet ∈ Directory.favorites s)) ->
  flags_consistent Position s -> flags_consistent Position s'.
Proof.
  intros Hp Hf Hnew Hs pid prof planet. rewrite Hp, Hf.
  destruct (decide (playerId = pid)) as [->|Hne].
  - rewrite lookup_insert_eq. intros [= <-]. apply Hnew.
  - rewrite lookup_insert_ne by exact Hne. apply Hs.
Qed.

Lemma settle_profile_consistent now playerId fetched (s : State) :
  flags_consistent Position s ->
  flags_consistent Position (settle_profile now playerId fetched s).
Proof.
  intros Hs. destruct fetched as [profile|e].
  - eapply flags_consistent_insert; [reflexivity | reflexivity | | exact Hs].
    simpl. intros planet Hin.
    apply List.in_map_iff in Hin as (p & <- & _). reflexivity.
  - eapply flags_consistent_insert; [reflexivity | reflexivity | | exact Hs].
    apply deriveProfile_flags.
Qed.

Lemma favoritePlanet_consistent target (s : State) :
  flags_consistent Position s -> flags_consistent Position (favoritePlanet target s).
Proof.
  intros Hs playerId profile planet Hlook Hin.
  rewrite favoritePlanet_flag.
  simpl in Hlook. rewrite lookup_fmap in Hlook.
  destruct (Directory.profiles s !! playerId) as [old|] eqn:Hold; [|discriminate].
  simpl in Hlook. injection Hlook as <-. simpl in Hin.
  apply List.in_map_iff in Hin as (p & <- & Hp).
  specialize (Hs playerId old p Hold Hp).
  unfold flip_planet. destruct (decide (planetId p = target)) as [Hid|Hid].
  - rewrite (bool_decide_eq_true_2 _ Hid). simpl.
    rewrite (bool_decide_eq_true_2 _ Hid). reflexivity.
  - rewrite (bool_decide_eq_false_2 _ Hid).
    rewrite (bool_decide_eq_false_2 _ Hid). exact Hs.
Qed.

Lemma setPlanetOwner_consistent now target ownerId alliance (s : State) :
  flags_consistent Position s ->
  flags_consistent Position (setPlanetOwner now target ownerId alliance s).
Proof.
  intros Hs.
  set (updated := map (reassign_system Position target ownerId alliance)
                    (Directory.systems s)).
  set (derive := fun playerId =>
         deriveProfile now playerId updated (Directory.favorites s)
           (Directory.players s)).
  set (profiles1 :=
         match previous_owner Position target (Directory.systems s) with
         | Some previousOwnerId =>
             if truthy previousOwnerId
             then <[previousOwnerId := derive previousOwnerId]> (Directory.profiles s)
             else Directory.profiles s
         | None => Directory.profiles s
         end).
  assert (H1 : flags_consistent Position
                 (set_systems_profiles Position updated profiles1 s)).
  { subst profiles1. destruct (previous_owner Position target (Directory.systems s)) as [prev|].
    - destruct (truthy prev).
      + eapply flags_consistent_insert; [reflexivity | reflexivity | | exact Hs].
        apply deriveProfile_flags.
      + eapply flags_consistent_same; [reflexivity | reflexivity | exact Hs].
    - eapply flags_consistent_same; [reflexivity | reflexivity | exact Hs]. }
  eapply (flags_consistent_insert (set_systems_profiles Position updated profiles1 s));
    [reflexivity | reflexivity | | exact H1].
  apply deriveProfile_flags.
Qed.

Lemma dispatch_invariants (s : State) step :
  flags_consistent Position s -> NoDup (Directory.favorites s) ->
  let s' := dispatch Position formatSystemCoordinate SYSTEM_SNAPSHOT PLAYER_DIRECTORY
              CURRENT_PLAYER_ID ALLIANCE_DIRECTORY s step in
  flags_consistent Position s'
  /\ NoDup (Directory.favorites s')
  /\ (Directory.isReady s = true -> Directory.isReady s' = true).
Proof.
  intros Hflags Hnd. destruct step as [|fetched|pid|now pid fetched| |target|now target o a];
    cbn [dispatch].
  - split; [|split]; [|exact Hnd|auto].
    eapply flags_consistent_same; [reflexivity | reflexivity | exact Hflags].
  - destruct (refresh_settled_ready fetched s) as (Hready & _ & Hfav & _ & Hprof).
    split; [|split]; [|rewrite Hfav; exact Hnd|auto].
    eapply flags_consistent_same; [exact Hprof | exact Hfav | exact Hflags].
  - split; [|split]; [|exact Hnd|auto].
    eapply flags_consistent_same; [reflexivity | reflexivity | exact Hflags].
  - split; [|split]; [apply settle_profile_consistent, Hflags| |].
    + destruct fetched; exact Hnd.
    + destruct fetched; auto.
  - split; [|split]; [|exact Hnd|auto].
    eapply flags_consistent_same; [reflexivity | reflexivity | exact Hflags].
  - split; [|split]; [apply favoritePlanet_consistent, Hflags| |auto].
    apply favoritePlanet_NoDup, Hnd.
  - split; [|split]; [apply setPlanetOwner_consistent, Hflags|exact Hnd|auto].
Qed.

(** X13. Along every sequence of store steps (actions being called and
    fetches settling, in any order) the favourite flags of all cached
    profiles agree with the list of favourites, the list of favourites
    stays free of duplicates, and a store that is ready stays ready. *)
Theorem store_invariants :
  forall (steps : list (Step Position)) (s : State),
    flags_consistent Position s ->
    NoDup (Directory.favorites s) ->
    let s' := dispatch_all Position formatSystemCoordinate SYSTEM_SNAPSHOT
                PLAYER_DIRECTORY CURRENT_PLAYER_ID ALLIANCE_DIRECTORY steps s in
    flags_consistent Position s'
    /\ NoDup (Directory.favorites s')
    /\ (Directory.isReady s = true -> Directory.isReady s' = true).
Proof.
  intros steps. induction steps as [|step rest IH] using rev_ind; intros s Hflags Hnd.
  - simpl. auto.
  - unfold dispatch_all in *. rewrite foldl_snoc.
    destruct (IH s Hflags Hnd) as (Hf & Hn & Hr).
    destruct (dispatch_invariants _ step Hf Hn) as (Hf' & Hn' & Hr').
    auto.
Qed.

Lemma filter_other_than target (ids : list string) :
  target ∉ ids ->
  List.filter (fun id => bool_decide (id <> target)) (ids ++ [target]) = ids.
Proof.
  intros Hnotin. induction ids as [|id rest IH]; simpl.
  - rewrite bool_decide_eq_false_2 by tauto. reflexivity.
  - apply not_elem_of_cons in Hnotin as [Hne Hrest].
    rewrite bool_decide_eq_true_2 by congruence. rewrite IH by exact Hrest.
    reflexivity.
Qed.

Lemma flip_twice target planet :
  isFavorite planet = false ->
  flip_planet target true (flip_planet target false planet) = planet.
Proof.
  intros Hflag. unfold flip_planet.
  destruct (decide (planetId planet = target)) as [Hid|Hid].
  - rewrite (bool_decide_eq_true_2 _ Hid). simpl.
    rewrite (bool_decide_eq_true_2 _ Hid). destruct planet. simpl in *.
    rewrite Hflag. reflexivity.
  - rewrite (bool_decide_eq_false_2 _ Hid).
    rewrite (bool_decide_eq_false_2 _ Hid). reflexivity.
Qed.

Lemma flip_twice_other target planet :
  planetId planet <> target ->
  flip_planet target true (flip_planet target false planet) = planet.
Proof.
  intros Hid. unfold flip_planet.
  rewrite (bool_decide_eq_false_2 _ Hid).
  rewrite (bool_decide_eq_false_2 _ Hid). reflexivity.
Qed.

(** X14. Marking a planet that is not a favourite and unmarking it again
    gives back the very same store state, provided the favourite flags of
    the cached profiles agreed with the favourites. *)
Theorem favoritePlanet_twice :
  forall (target : string) (s : State),
    target ∉ Directory.favorites s ->
    flags_consistent Position s ->
    favoritePlanet target (favoritePlanet target s) = s.
Proof.
  intros target s Hnotin Hflags.
  unfold DirectoryActions.favoritePlanet at 1.
  rewrite (favoritePlanet_favorites target s).
  rewrite (bool_decide_eq_false_2 _ Hnotin).
  rewrite bool_decide_eq_true_2 by (apply elem_of_app; right; apply list_elem_of_singleton; reflexivity).
  rewrite filter_other_than by exact Hnotin.
  unfold DirectoryActions.favoritePlanet.
  rewrite (bool_decide_eq_false_2 _ Hnotin).
  cbn [Directory.profiles set_favorites_profiles].
  rewrite <- map_fmap_compose.
  assert (Hprofiles :
    (fun profile => with_planets profile (map (flip_planet target true) (planets profile)))
    ∘ (fun profile => with_planets profile (map (flip_planet target false) (planets profile)))
    <$> Directory.profiles s = Directory.profiles s).
  { apply map_eq. intros playerId. rewrite lookup_fmap.
    destruct (Directory.profiles s !! playerId) as [profile|] eqn:Hlook; [|reflexivity].
    simpl. f_equal. destruct profile as [pid tag last ally ps]. unfold with_planets. simpl.
    f_equal. rewrite map_map.
    rewrite <- (map_id ps) at 2. apply map_ext_in. intros planet Hin.
    destruct (decide (planetId planet = target)) as [Hid|Hid].
    - apply flip_twice. rewrite (Hflags playerId _ planet Hlook Hin).
      apply bool_decide_eq_false_2. rewrite Hid. exact Hnotin.
    - apply flip_twice_other, Hid. }
  rewrite Hprofiles. destruct s. reflexivity.
Qed.

(** *** Planets *)

Lemma find_planet_Some target (systems : list System) planet :
  find_planet Position target systems = Some planet ->
  planet_id planet = target
  /\ exists system, In system systems /\ In planet (system_planets system).
Proof.
  induction systems as [|system rest IH]; simpl; [discriminate|].
  destruct (List.find _ (system_planets system)) as [found|] eqn:Hfind.
  - intros [= <-]. apply List.find_some in Hfind as [Hin Hid].
    apply bool_decide_eq_true in Hid. split; [exact Hid|]. exists system. auto.
  - intros Hrest. destruct (IH Hrest) as (Hid & sys & Hsys & Hin).
    split; [exact Hid|]. exists sys. auto.
Qed.

Lemma find_planet_None target (systems : list System) :
  find_planet Position target systems = None ->
  forall system planet,
    In system systems -> In planet (system_planets system) -> planet_id planet <> target.
Proof.
  induction systems as [|system rest IH]; simpl; [tauto|].
  destruct (List.find _ (system_planets system)) as [found|] eqn:Hfind; [discriminate|].
  intros Hrest sys planet [<-|Hsys] Hin.
  - pose proof (List.find_none _ _ Hfind planet Hin) as Hno.
    apply bool_decide_eq_false in Hno. exact Hno.
  - eapply IH; eauto.
Qed.

(** X15. [getPlanetById] returns a planet that has the id asked for and
    lies in one of the systems of the store; it returns nothing only when
    no planet of any system has the id. *)
Theorem getPlanetById_found_iff_present :
  forall (target : string) (s : State),
    match getPlanetById Position target s with
    | Some planet =>
        planet_id planet = target
        /\ exists system, In system (Directory.systems s)
                          /\ In planet (system_planets system)
    | None =>
        forall system planet,
          In system (Directory.systems s) -> In planet (system_planets system) ->
          planet_id planet <> target
    end.
Proof.
  intros target s. unfold getPlanetById.
  destruct (find_planet Position target (Directory.systems s)) as [planet|] eqn:Hfind.
  - apply find_planet_Some, Hfind.
  - apply find_planet_None, Hfind.
Qed.

Lemma reassign_id target ownerId alliance planet :
  planet_id (reassign target ownerId alliance planet) = planet_id planet.
Proof. unfold reassign. case_bool_decide; reflexivity. Qed.

Lemma find_reassigned target ownerId alliance wanted (ps : list GalaxyPlanet) :
  List.find (fun entry => bool_decide (planet_id entry = wanted))
    (map (reassign target ownerId alliance) ps)
  = reassign target ownerId alliance
    <$> List.find (fun entry => bool_decide (planet_id entry = wanted)) ps.
Proof.
  induction ps as [|planet rest IH]; simpl; [reflexivity|].
  rewrite reassign_id. destruct (bool_decide (planet_id planet = wanted)); [reflexivity|].
  exact IH.
Qed.

Lemma find_planet_reassigned target ownerId alliance wanted (systems : list System) :
  find_planet Position wanted (map (reassign_system Position target ownerId alliance) systems)
  = reassign target ownerId alliance <$> find_planet Position wanted systems.
Proof.
  induction systems as [|system rest IH]; simpl; [reflexivity|].
  rewrite find_reassigned.
  destruct (List.find _ (system_planets system)); simpl; [reflexivity | exact IH].
Qed.

Lemma setPlanetOwner_systems now target ownerId alliance (s : State) :
  Directory.systems (setPlanetOwner now target ownerId alliance s)
  = map (reassign_system Position target ownerId alliance) (Directory.systems s).
Proof. reflexivity. Qed.

(** X16. After [setPlanetOwner] a lookup by id finds the planet it found
    before, with the new owner and alliance when it is the planet that was
    reassigned and unchanged otherwise; the systems keep their ids,
    positions and number of planets, and players and favourites are
    untouched. *)
Theorem setPlanetOwner_updates_planet :
  forall (now : Z) (target ownerId : string) (alliance : option string)
         (wanted : string) (s : State),
    let s' := setPlanetOwner now target ownerId alliance s in
    getPlanetById Position wanted s'
    = (fun planet =>
         if bool_decide (wanted = target)
         then {| planet_id := planet_id planet;
                 planet_ownerId := Some ownerId;
                 planet_allianceId := alliance;
                 planet_slot := planet_slot planet;
                 planet_biome := planet_biome planet |}
         else planet)
      <$> getPlanetById Position wanted s
    /\ map system_id (Directory.systems s') = map system_id (Directory.systems s)
    /\ map system_position (Directory.systems s')
       = map system_position (Directory.systems s)
    /\ map (fun system => length (system_planets system)) (Directory.systems s')
       = map (fun system => length (system_planets system)) (Directory.systems s)
    /\ Directory.players s' = Directory.players s
    /\ Directory.favorites s' = Directory.favorites s.
Proof.
  intros now target ownerId alliance wanted s s'. subst s'.
  unfold getPlanetById. rewrite !setPlanetOwner_systems.
  split; [|split; [|split; [|split]]].
  - rewrite find_planet_reassigned.
    destruct (find_planet Position wanted (Directory.systems s)) as [planet|] eqn:Hfind;
      [|reflexivity].
    apply find_planet_Some in Hfind as [Hid _]. simpl. f_equal.
    unfold reassign. rewrite Hid.
    destruct (decide (wanted = target)) as [Heq|Hne].
    + rewrite (bool_decide_eq_false_2 (wanted <> target)) by tauto.
      rewrite (bool_decide_eq_true_2 _ Heq). reflexivity.
    + rewrite (bool_decide_eq_true_2 (wanted <> target)) by exact Hne.
      rewrite (bool_decide_eq_false_2 _ Hne). reflexivity.
  - rewrite map_map. reflexivity.
  - rewrite map_map. reflexivity.
  - rewrite map_map. apply map_ext. intros system. simpl. apply length_map.
  - split; reflexivity.
Qed.

(** *** Derived profiles *)

Lemma deriveProfile_planets now playerId (systems : list System) favorites players summary :
  In summary (planets (deriveProfile now playerId systems favorites players))
  <-> exists system planet,
        In system systems /\ In planet (system_planets system)
        /\ planet_ownerId planet = Some playerId
        /\ summary = summary_of favorites system planet.
Proof.
  simpl. rewrite List.in_flat_map. split.
  - intros (system & Hsys & Hin).
    apply List.in_map_iff in Hin as (planet & <- & Hin).
    apply List.filter_In in Hin as [Hin Hown].
    apply bool_decide_eq_true in Hown. eauto 10.
  - intros (system & planet & Hsys & Hin & Hown & ->).
    exists system. split; [exact Hsys|].
    apply List.in_map_iff. exists planet. split; [reflexivity|].
    apply List.filter_In. split; [exact Hin|].
    apply bool_decide_eq_true. exact Hown.
Qed.

Lemma setPlanetOwner_owner_profile now target ownerId alliance (s : State) :
  Directory.profiles (setPlanetOwner now target ownerId alliance s) !! ownerId
  = Some (deriveProfile now ownerId
            (Directory.systems (setPlanetOwner now target ownerId alliance s))
            (Directory.favorites s) (Directory.players s)).
Proof.
  rewrite setPlanetOwner_systems.
  unfold DirectoryActions.setPlanetOwner. cbn [Directory.profiles set_systems_profiles].
  apply lookup_insert_eq.
Qed.

(** X17. After [setPlanetOwner] for a planet that exists, the cached
    profile of the new owner is the one derived from the updated systems:
    it lists the planet, and every planet it lists is a planet of the
    updated systems that the new owner owns. *)
Theorem setPlanetOwner_new_owner_profile :
  forall (now : Z) (target ownerId : string) (alliance : option string)
         (s : State) (planet : GalaxyPlanet),
    getPlanetById Position target s = Some planet ->
    let s' := setPlanetOwner now target ownerId alliance s in
    exists profile,
      Directory.profiles s' !! ownerId = Some profile
      /\ profile_id profile = ownerId
      /\ In target (map planetId (planets profile))
      /\ forall summary,
           In summary (planets profile) ->
           exists system owned,
             In system (Directory.systems s') /\ In owned (system_planets system)
             /\ planet_ownerId owned = Some ownerId
             /\ planetId summary = planet_id owned
             /\ systemId summary = system_id system.
Proof.
  intros now target ownerId alliance s planet Hfound s'. subst s'.
  eexists. split; [apply setPlanetOwner_owner_profile|].
  split; [reflexivity|]. split.
  - apply find_planet_Some in Hfound as (Hid & system & Hsys & Hin).
    apply List.in_map_iff.
    exists (summary_of (Directory.favorites s)
              (reassign_system Position target ownerId alliance system)
              (reassign target ownerId alliance planet)).
    split; [simpl; rewrite reassign_id; exact Hid|].
    apply deriveProfile_planets.
    exists (reassign_system Position target ownerId alliance system),
           (reassign target ownerId alliance planet).
    split; [|split; [|split; [|reflexivity]]].
    + rewrite setPlanetOwner_systems. apply List.in_map, Hsys.
    + simpl. apply List.in_map, Hin.
    + unfold reassign. rewrite bool_decide_eq_false_2 by tauto. reflexivity.
  - intros summary Hin.
    apply deriveProfile_planets in Hin as (system & owned & Hsys & Hin & Hown & ->).
    exists system, owned. auto.
Qed.

(** X18. After [setPlanetOwner] the cached profile of the previous owner,
    when there was one other than the new owner, no longer lists the
    planet. *)
Theorem setPlanetOwner_previous_owner_profile :
  forall (now : Z) (target ownerId previousOwnerId : string)
         (alliance : option string) (s : State),
    previous_owner Position target (Directory.systems s) = Some previousOwnerId ->
    previousOwnerId <> "" ->
    previousOwnerId <> ownerId ->
    let s' := setPlanetOwner now target ownerId alliance s in
    exists profile,
      Directory.profiles s' !! previousOwnerId = Some profile
      /\ profile_id profile = previousOwnerId
      /\ ~ In target (map planetId (planets profile)).
Proof.
  intros now target ownerId prev alliance s Hprev Hnonempty Hne s'. subst s'.
  exists (deriveProfile now prev
            (map (reassign_system Position target ownerId alliance) (Directory.systems s))
            (Directory.favorites s) (Directory.players s)).
  split; [|split; [reflexivity|]].
  - unfold DirectoryActions.setPlanetOwner.
    cbn [Directory.profiles set_systems_profiles].
    rewrite lookup_insert_ne by congruence.
    rewrite Hprev. unfold truthy.
    rewrite (bool_decide_eq_false_2 _ Hnonempty). simpl.
    apply lookup_insert_eq.
  - intros Hin. apply List.in_map_iff in Hin as (summary & Hid & Hin).
    apply deriveProfile_planets in Hin as (system & owned & Hsys & Hin & Hown & ->).
    simpl in Hid.
    apply List.in_map_iff in Hsys as (system0 & <- & _). simpl in Hin.
    apply List.in_map_iff in Hin as (planet0 & <- & _).
    rewrite reassign_id in Hid. unfold reassign in Hown.
    rewrite bool_decide_eq_false_2 in Hown by tauto.
    simpl in Hown. congruence.
Qed.

Lemma find_player_None playerId (players : list Player) :
  (forall player, In player players -> player_id player <> playerId) ->
  List.find (fun entry => bool_decide (player_id entry = playerId)) players = None
  /\ list_find (fun entry => player_id entry = playerId) players = None.
Proof.
  intros Hnone. split.
  - induction players as [|player rest IH]; [reflexivity|]. simpl.
    rewrite bool_decide_eq_false_2 by (apply Hnone; left; reflexivity).
    apply IH. intros p Hp. apply Hnone. right. exact Hp.
  - apply list_find_None. apply List.Forall_forall. exact Hnone.
Qed.

(** X19. A derived profile never claims activity in the future, and for
    a player id that is not in the player list it falls back to the name
    "Kommandant", no alliance and the current time as last activity. *)
Theorem deriveProfile_unknown_player :
  forall (now : Z) (playerId : string) (systems : list System)
         (favorites : list string) (players : list Player),
    (forall player, In player players -> player_id player <> playerId) ->
    let profile := deriveProfile now playerId systems favorites players in
    profile_id profile = playerId
    /\ tagline profile = "Kommandant Â· Arkana Flotte"
    /\ lastActiveAt profile = now
    /\ allianceId profile = None
    /\ forall others,
         lastActiveAt (deriveProfile now playerId systems favorites others) <= now.
Proof.
  intros now playerId systems favorites players Hnone profile. subst profile.
  destruct (find_player_None playerId players Hnone) as [Hfind Hindex].
  unfold DirectoryActions.deriveProfile.
  cbn [profile_id tagline lastActiveAt allianceId].
  rewrite Hfind, Hindex.
  split; [reflexivity|]. split; [reflexivity|]. split; [lia|].
  split; [reflexivity|].
  intros others. destruct (list_find _ others) as [[i p]|]; lia.
Qed.

(** *** Alliance colours *)

(** X20. [getAllianceColor] gives nothing for a missing or empty id; for
    the id of an alliance of [ALLIANCE_DIRECTORY] it always gives a colour,
    whatever the store holds; and a non-empty colour in the store's map is
    the one returned. *)
Theorem getAllianceColor_known_alliance :
  forall (entry : Directory.Alliance) (s : State),
    In entry ALLIANCE_DIRECTORY ->
    Directory.alliance_id entry <> "" ->
    is_Some (getAllianceColor Position ALLIANCE_DIRECTORY
               (Some (Directory.alliance_id entry)) s)
    /\ getAllianceColor Position ALLIANCE_DIRECTORY None s = None
    /\ getAllianceColor Position ALLIANCE_DIRECTORY (Some "") s = None
    /\ forall color,
         Directory.allianceColors s !! Directory.alliance_id entry = Some color ->
         color <> "" ->
         getAllianceColor Position ALLIANCE_DIRECTORY
           (Some (Directory.alliance_id entry)) s = Some color.
Proof.
  intros entry s Hin Hid.
  split; [|split; [reflexivity|split; [reflexivity|]]].
  - unfold getAllianceColor, truthy.
    rewrite (bool_decide_eq_false_2 _ Hid). simpl.
    assert (Hfallback : is_Some
              (Directory.alliance_color
               <$> List.find (fun e => bool_decide (Directory.alliance_id e
                                                     = Directory.alliance_id entry))
                     ALLIANCE_DIRECTORY)).
    { destruct (List.find _ ALLIANCE_DIRECTORY) as [found|] eqn:Hfind; [eexists; reflexivity|].
      pose proof (List.find_none _ _ Hfind entry Hin) as Hno.
      apply bool_decide_eq_false in Hno. contradiction. }
    destruct (Directory.allianceColors s !! Directory.alliance_id entry) as [color|];
      [|exact Hfallback].
    destruct (bool_decide (color = "")); simpl; [exact Hfallback | eexists; reflexivity].
  - intros color Hcolor Hnonempty. unfold getAllianceColor, truthy.
    rewrite (bool_decide_eq_false_2 _ Hid). simpl. rewrite Hcolor.
    rewrite (bool_decide_eq_false_2 _ Hnonempty). reflexivity.
Qed.

(** *** Opening a profile *)

(** X21. For a player id that is not the name of a member inherited from
    [Object.prototype]: once [openPlayerProfile] has run to its end there
    is a profile for the player in the cache, whether it was cached
    already, fetched, or the fetch failed; in the last case it is the
    profile derived from the systems, favourites and players of the store
    at that moment. With nothing else intervening the profile is the open
    one. For the name of an inherited member [openPlayerProfile] only sets
    [openProfileId]: it neither fetches nor caches anything. *)
Theorem openPlayerProfile_yields_profile :
  forall (now : Z) (playerId : string) (meanwhile : State -> State)
         (fetched : Directory.Settled PlayerProfile) (e : Directory.Thrown) (s : State),
    playerId ∉ Object_prototype_keys ->
    let before := meanwhile (set_openProfileId Position (Some playerId) s) in
    is_Some (Directory.profiles (openPlayerProfile now playerId meanwhile fetched s)
             !! playerId)
    /\ Directory.openProfileId (openPlayerProfile now playerId (fun x => x) fetched s)
       = Some playerId
    /\ (Directory.profiles s !! playerId = None ->
        Directory.profiles
          (openPlayerProfile now playerId meanwhile (Directory.rejected e) s)
        !! playerId
        = Some (deriveProfile now playerId (Directory.systems before)
                  (Directory.favorites before) (Directory.players before)))
    /\ Forall (fun inherited =>
                 openPlayerProfile now inherited meanwhile fetched s
                 = set_openProfileId Position (Some inherited) s)
         Object_prototype_keys.
Proof.
  intros now playerId meanwhile fetched e s Hown before. subst before.
  unfold DirectoryActions.openPlayerProfile, profile_is_truthy.
  cbn [Directory.profiles set_openProfileId].
  rewrite (bool_decide_eq_false_2 _ Hown), orb_false_r.
  split; [|split; [|split]].
  - destruct (Directory.profiles s !! playerId) as [cached|] eqn:Hcached.
    + rewrite bool_decide_eq_true_2 by (eexists; reflexivity).
      simpl. rewrite Hcached. eexists; reflexivity.
    + rewrite bool_decide_eq_false_2 by (intros [? [=]]).
      destruct fetched; simpl; rewrite lookup_insert_eq; eexists; reflexivity.
  - destruct (bool_decide (is_Some (Directory.profiles s !! playerId)));
      [reflexivity|]. destruct fetched; reflexivity.
  - intros ->. rewrite bool_decide_eq_false_2 by (intros [? [=]]).
    simpl. apply lookup_insert_eq.
  - apply List.Forall_forall. intros inherited Hin.
    apply list_elem_of_In in Hin.
    unfold DirectoryActions.openPlayerProfile, profile_is_truthy.
    rewrite (bool_decide_eq_true_2 _ Hin), orb_true_r. reflexivity.
Qed.

End DirectoryActionFacts.

(** ** The directory store at the sample data *)

Lemma demo_store_consistent : DirectoryActions.flags_consistent unit demo_store.
Proof. intros playerId profile planet Hlook. simpl in Hlook. rewrite lookup_empty in Hlook. discriminate. Qed.

Lemma demo_store_NoDup : NoDup (Directory.favorites demo_store).
Proof. apply (bool_decide_unpack (NoDup (Directory.favorites demo_store))). reflexivity. Qed.

Lemma initialize_once_witness :
  DirectoryActions.initialize unit [] [] "" [] (fun s => s)
    (Directory.rejected Directory.thrown_other) demo_store
  = (Directory.fulfilled tt, demo_store).
Proof.
  exact (proj1 (initialize_once unit [] [] "" [] (fun s => s) (fun s => s)
                  (Directory.rejected Directory.thrown_other)
                  (Directory.rejected Directory.thrown_other) demo_store)
           eq_refl).
Defined.

Lemma favoritePlanet_toggles_witness :
  "p-1" ∈ Directory.favorites (DirectoryActions.favoritePlanet unit "p-1" demo_store)
  /\ NoDup (Directory.favorites (DirectoryActions.favoritePlanet unit "p-1" demo_store)).
Proof.
  pose proof (favoritePlanet_toggles unit "p-1" demo_store demo_store_NoDup)
    as (Hnd & Hmem & _).
  split; [|exact Hnd]. apply Hmem.
  apply (bool_decide_unpack ("p-1" ∉ Directory.favorites demo_store)). reflexivity.
Defined.

Lemma store_invariants_witness :
  let s' := DirectoryActions.dispatch_all unit demo_coordinate [] [] "" demo_alliances
              demo_steps demo_store in
  DirectoryActions.flags_consistent unit s' /\ NoDup (Directory.favorites s').
Proof.
  intros s'.
  pose proof (store_invariants unit demo_coordinate [] [] "" demo_alliances demo_steps
                demo_store demo_store_consistent demo_store_NoDup)
    as (Hflags & Hnd & _).
  split; [exact Hflags | exact Hnd].
Defined.

Lemma favoritePlanet_twice_witness :
  DirectoryActions.favoritePlanet unit "p-1"
    (DirectoryActions.favoritePlanet unit "p-1" demo_store)
  = demo_store.
Proof.
  apply favoritePlanet_twice; [|exact demo_store_consistent].
  apply (bool_decide_unpack ("p-1" ∉ Directory.favorites demo_store)). reflexivity.
Defined.

Lemma setPlanetOwner_new_owner_witness :
  exists profile,
    Directory.profiles
      (DirectoryActions.setPlanetOwner unit demo_coordinate 6000 "p-1" "bob" None demo_store)
    !! "bob" = Some profile
    /\ In "p-1" (map DirectoryActions.planetId (DirectoryActions.planets profile)).
Proof.
  destruct (setPlanetOwner_new_owner_profile unit demo_coordinate 6000 "p-1" "bob" None
              demo_store _ eq_refl) as (profile & Hlook & _ & Hin & _).
  exists profile. split; [exact Hlook | exact Hin].
Defined.

Lemma setPlanetOwner_previous_owner_witness :
  exists profile,
    Directory.profiles
      (DirectoryActions.setPlanetOwner unit demo_coordinate 6000 "p-1" "bob" None demo_store)
    !! "alice" = Some profile
    /\ ~ In "p-1" (map DirectoryActions.planetId (DirectoryActions.planets profile)).
Proof.
  destruct (setPlanetOwner_previous_owner_profile unit demo_coordinate 6000 "p-1" "bob"
              "alice" None demo_store eq_refl) as (profile & Hlook & _ & Hnotin);
    [discriminate | discriminate |].
  exists profile. split; [exact Hlook | exact Hnotin].
Defined.

Lemma deriveProfile_unknown_player_witness :
  DirectoryActions.lastActiveAt
    (DirectoryActions.deriveProfile unit demo_coordinate 7000 "carol" [demo_system]
       ["p-2"] demo_players)
  = 7000.
Proof.
  apply (deriveProfile_unknown_player unit demo_coordinate 7000 "carol" [demo_system]
           ["p-2"] demo_players).
  intros player [<-|[<-|[]]]; discriminate.
Defined.

Lemma getAllianceColor_known_witness :
  is_Some (DirectoryActions.getAllianceColor unit demo_alliances (Some "a-1") demo_store).
Proof.
  apply (getAllianceColor_known_alliance unit demo_alliances
           {| Directory.alliance_id := "a-1"; Directory.alliance_color := "#c0392b" |}
           demo_store).
  - left. reflexivity.
  - discriminate.
Defined.

Lemma openPlayerProfile_witness :
  Directory.profiles
    (DirectoryActions.openPlayerProfile unit demo_coordinate 5000 "alice" (fun s => s)
       (Directory.rejected Directory.thrown_other) demo_store)
  !! "alice"
  = Some (DirectoryActions.deriveProfile unit demo_coordinate 5000 "alice"
            [demo_system] ["p-2"] demo_players).
Proof.
  assert (Hown : "alice" ∉ DirectoryActions.Object_prototype_keys).
  { apply (bool_decide_unpack ("alice" ∉ DirectoryActions.Object_prototype_keys)).
    reflexivity. }
  exact (proj1 (proj2 (proj2
           (openPlayerProfile_yields_profile unit demo_coordinate 5000 "alice"
              (fun s => s) (Directory.rejected Directory.thrown_other)
              Directory.thrown_other demo_store Hown)))
           eq_refl).
Defined.
